(** * The multi-threaded bank system: a model of main.cpp

    The program keeps a vector of heap-allocated accounts, a vector of
    transaction records and a counter for the next account number.  Every
    account carries its own [std::mutex]; a second, global mutex guards the
    registry, the log and the console.

    The C++ methods are written here as programs of a small monad whose
    primitive steps are the atomic actions of one thread: reading the shared
    memory, writing it, and acquiring or releasing a mutex.  The same program
    text is then run in two ways: by one thread alone ([run]), which is how
    [main] drives it, and by a pool of threads under an arbitrary schedule
    ([pool_step]), which is what the mutexes are there for. *)

From stdpp Require Import base decidable countable gmap list strings pretty.
From Stdlib Require Import ZArith Lia.

Local Open Scope Z_scope.

(** ** The machine integer [int] *)

(** [int] is a 32-bit two's complement integer.  Results of [+] and [-] that
    leave the range are reduced modulo 2^32, which is what the usual compilers
    produce for this code (the language standard leaves that case open). *)
Module Int.

Definition min : Z := -2147483648.
Definition max : Z := 2147483647.

Definition in_range (z : Z) : Prop := min <= z <= max.

Definition wrap (z : Z) : Z := (z + 2147483648) mod 4294967296 - 2147483648.

Definition add (x y : Z) : Z := wrap (x + y).
Definition sub (x y : Z) : Z := wrap (x - y).

End Int.

(** ** Data *)

(** [class Transaction].  The [timestamp] member, the text of the wall clock
    at construction, is left out: nothing below reads it. *)
Record Transaction := mkTransaction {
  transactionId : Z;
  type : string;
  amount : Z;
  fromAccount : Z;
  toAccount : Z
}.

(** The data members of [class Account]; its mutex lives in the lock set. *)
Record Account := mkAccount {
  accountNumber : Z;
  accountName : string;
  balance : Z;
  accountType : string
}.

(** The shared memory: the members of the one [Bank] object and the console.
    An account object is named by its position in [accounts]: the vector only
    grows at the end and its elements are never moved or freed, so a position
    is as stable as the pointer held by the [unique_ptr]. *)
Record heap := mkHeap {
  accounts : list Account;
  transactions : list Transaction;
  nextAccountNumber : Z;
  cout : list string
}.

(** The mutexes of the program: [globalMutex] and one [accMutex] per account
    object. *)
Inductive mutex :=
  | globalMutex
  | accMutex (this : nat).

#[global] Instance mutex_eq_dec : EqDecision mutex.
Proof. solve_decision. Defined.

#[global] Instance mutex_countable : Countable mutex.
Proof.
  refine (inj_countable'
            (fun m => match m with globalMutex => None | accMutex a => Some a end)
            (fun o => match o with None => globalMutex | Some a => accMutex a end) _).
  by intros [].
Defined.

(** The set of mutexes that are currently held. *)
Abbreviation locks := (gset mutex).

(** ** Programs *)

(** A program is a tree of atomic actions ending in a result. *)
Inductive prog (A : Type) : Type :=
  | Ret (a : A)
  | Load (k : heap -> prog A)
  | Store (f : heap -> heap) (k : prog A)
  | Lock (m : mutex) (k : prog A)
  | Unlock (m : mutex) (k : prog A).

Arguments Ret {A} a.
Arguments Load {A} k.
Arguments Store {A} f k.
Arguments Lock {A} m k.
Arguments Unlock {A} m k.

Fixpoint bind {A B : Type} (p : prog A) (f : A -> prog B) : prog B :=
  match p with
  | Ret a => f a
  | Load k => Load (fun h => bind (k h) f)
  | Store g k => Store g (bind k f)
  | Lock m k => Lock m (bind k f)
  | Unlock m k => Unlock m (bind k f)
  end.

#[global] Instance prog_ret : MRet prog := @Ret.
#[global] Instance prog_bind : MBind prog := fun A B f p => bind p f.

Definition load {B : Type} (f : heap -> B) : prog B := Load (fun h => Ret (f h)).
Definition store (f : heap -> heap) : prog unit := Store f (Ret tt).

(** [std::lock_guard<mutex> guard(m)]: the mutex is acquired where the guard
    is declared and released when its scope is left, on every path. *)
Definition lock_guard {A : Type} (m : mutex) (scope : prog A) : prog A :=
  Lock m (r ← scope; Unlock m (Ret r)).

(** *** One thread running alone *)

(** A thread that asks for a mutex which is held waits until it is released.
    [std::mutex] is not recursive, so this is also what happens to a thread
    that asks for a mutex it holds itself on the usual implementations (the
    language standard leaves that case open).  When the thread runs alone
    nobody will release the mutex: the call never returns. *)
Inductive outcome (A : Type) : Type :=
  | Returns (a : A) (h : heap) (L : locks)
  | Blocks (m : mutex) (h : heap) (L : locks).

Arguments Returns {A} a h L.
Arguments Blocks {A} m h L.

Fixpoint run {A : Type} (p : prog A) (h : heap) (L : locks) : outcome A :=
  match p with
  | Ret a => Returns a h L
  | Load k => run (k h) h L
  | Store f k => run k (f h) L
  | Lock m k => if decide (m ∈ L) then Blocks m h L else run k h ({[m]} ∪ L)
  | Unlock m k => run k h (L ∖ {[m]})
  end.

(** *** Threads running together *)

(** One atomic action of a thread; [None] when the thread has finished or
    waits for a mutex. *)
Definition thread_step {A : Type} (p : prog A) (h : heap) (L : locks)
  : option (prog A * heap * locks) :=
  match p with
  | Ret _ => None
  | Load k => Some (k h, h, L)
  | Store f k => Some (k, f h, L)
  | Lock m k => if decide (m ∈ L) then None else Some (k, h, {[m]} ∪ L)
  | Unlock m k => Some (k, h, L ∖ {[m]})
  end.

Definition finished {A : Type} (p : prog A) : bool :=
  match p with Ret _ => true | _ => false end.

Record config (A : Type) := mkConfig {
  threads : list (prog A);
  memory : heap;
  held : locks
}.

Arguments mkConfig {A} threads memory held.
Arguments threads {A} c.
Arguments memory {A} c.
Arguments held {A} c.

(** The scheduler lets thread [t] make one step. *)
Definition pool_step {A : Type} (t : nat) (c : config A) : option (config A) :=
  p ← threads c !! t;
  '(p', h', L') ← thread_step p (memory c) (held c);
  Some (mkConfig (<[t := p']> (threads c)) h' L').

Fixpoint schedule {A : Type} (ts : list nat) (c : config A) : option (config A) :=
  match ts with
  | [] => Some c
  | t :: ts' => c' ← pool_step t c; schedule ts' c'
  end.

(** No thread can move, and some thread has not finished. *)
Definition deadlocked {A : Type} (c : config A) : Prop :=
  (forall t, pool_step t c = None) /\
  (exists t p, threads c !! t = Some p /\ finished p = false).

(** ** [class Account] *)

(** Reading and writing the [balance] member of the account object [this].
    Pointers to accounts come from [findAccount] only, so [this] is always a
    position of the vector. *)
Definition get_balance (this : nat) (h : heap) : Z :=
  from_option balance 0 (accounts h !! this).

Definition with_balance (v : Z) (a : Account) : Account :=
  mkAccount (accountNumber a) (accountName a) v (accountType a).

Definition set_balance (this : nat) (v : Z) (h : heap) : heap :=
  mkHeap (alter (with_balance v) this (accounts h))
         (transactions h) (nextAccountNumber h) (cout h).

(** [amount <= 0 || amount > balance]: the balance is read only when the
    first test fails. *)
Definition rejects (this : nat) (amount : Z) : prog bool :=
  if bool_decide (amount <= 0) then mret true
  else b ← load (get_balance this); mret (bool_decide (amount > b)).

Module Account.

Definition deposit (this : nat) (amount : Z) : prog bool :=
  if bool_decide (amount <= 0) then mret false
  else
    lock_guard (accMutex this)
      (b ← load (get_balance this);
       store (set_balance this (Int.add b amount));;
       mret true).

Definition withdraw (this : nat) (amount : Z) : prog bool :=
  lock_guard (accMutex this)
    (no ← rejects this amount;
     if no : bool then mret false
     else
       b ← load (get_balance this);
       store (set_balance this (Int.sub b amount));;
       mret true).

Definition transfer (this : nat) (toAccount : nat) (amount : Z) : prog bool :=
  lock_guard (accMutex this)
    (no ← rejects this amount;
     if no : bool then mret false
     else
       b ← load (get_balance this);
       store (set_balance this (Int.sub b amount));;
       lock_guard (accMutex toAccount)
         (b' ← load (get_balance toAccount);
          store (set_balance toAccount (Int.add b' amount));;
          mret true)).

End Account.

(** ** [class Bank] *)

Definition push_account (a : Account) (h : heap) : heap :=
  mkHeap (accounts h ++ [a]) (transactions h) (nextAccountNumber h) (cout h).

Definition set_nextAccountNumber (v : Z) (h : heap) : heap :=
  mkHeap (accounts h) (transactions h) v (cout h).

(** [transactions.emplace_back(transactions.size() + 1, ...)]: the size is
    converted to the [int] member [transactionId]. *)
Definition emplace_transaction (type : string) (amount fromAccount toAccount : Z)
    (h : heap) : heap :=
  mkHeap (accounts h)
         (transactions h ++
            [mkTransaction (Int.wrap (Z.of_nat (length (transactions h)) + 1))
                           type amount fromAccount toAccount])
         (nextAccountNumber h) (cout h).

(** [cout << line << endl] *)
Definition put_line (line : string) (h : heap) : heap :=
  mkHeap (accounts h) (transactions h) (nextAccountNumber h) (cout h ++ [line]).

Definition print (line : string) : prog unit := store (put_line line).

(** The members as the constructor finds them: [nextAccountNumber = 1000],
    both vectors empty. *)
Definition initial : heap := mkHeap [] [] 1000 [].

(** The loop of [findAccount] over the vector: the first account whose
    [getAccountNumber()] matches, [None] standing for [nullptr]. *)
Definition first_with_number (number : Z) (accs : list Account) : option nat :=
  fst <$> list_find (fun acc => accountNumber acc = number) accs.

(** The default of the last parameter of [recordTransaction]. *)
Definition no_account : Z := -1.

Module Bank.

Definition Bank : prog unit := print "Welcome to the Bank!".

Definition createAccount (name type : string) (initialBalance : Z) : prog Z :=
  lock_guard globalMutex
    (n ← load nextAccountNumber;
     store (push_account (mkAccount n name initialBalance type));;
     r ← load nextAccountNumber;
     store (set_nextAccountNumber (Int.add r 1));;
     mret r).

Definition findAccount (number : Z) : prog (option nat) :=
  load (fun h => first_with_number number (accounts h)).

Definition recordTransaction (type : string) (amount fromAccount toAccount : Z)
    : prog unit :=
  lock_guard globalMutex
    (store (emplace_transaction type amount fromAccount toAccount)).

End Bank.

(** ** [userMenu] *)

(** What one round of the menu has read from the console, for the choices
    that change the bank.  The prompts and the parsing of the input are not
    modelled; the values are the [int]s and words that [cin] delivered. *)
Inductive choice :=
  | CreateAccount (name type : string) (amount : Z)
  | Deposit (accNum amount : Z)
  | Withdraw (accNum amount : Z)
  | Transfer (accNum toAcc amount : Z).

Definition menu_case (c : choice) : prog unit :=
  match c with
  | CreateAccount name type amount =>
      accNum ← Bank.createAccount name type amount;
      print ("Account Created! Your Account Number is: " +:+ pretty accNum)
  | Deposit accNum amount =>
      acc ← Bank.findAccount accNum;
      match acc with
      | Some acc =>
          ok ← Account.deposit acc amount;
          if ok : bool then
            print "Deposited Successfully!";;
            Bank.recordTransaction "Deposit" amount accNum no_account
          else mret tt
      | None => print "Invalid Account!"
      end
  | Withdraw accNum amount =>
      acc ← Bank.findAccount accNum;
      match acc with
      | Some acc =>
          ok ← Account.withdraw acc amount;
          if ok : bool then
            print "Withdrawal Successful!";;
            Bank.recordTransaction "Withdraw" amount accNum no_account
          else mret tt
      | None => print "Invalid Account!"
      end
  | Transfer accNum toAcc amount =>
      from ← Bank.findAccount accNum;
      match from with
      | Some from =>
          to ← Bank.findAccount toAcc;
          match to with
          | Some to =>
              ok ← Account.transfer from to amount;
              if ok : bool then
                print "Transfer Successful!";;
                Bank.recordTransaction "Transfer" amount accNum toAcc
              else mret tt
          | None => mret tt
          end
      | None => print "Invalid Accounts!"
      end
  end.

Fixpoint userMenu (input : list choice) : prog unit :=
  match input with
  | [] => mret tt
  | c :: rest => menu_case c;; userMenu rest
  end.

Definition main (input : list choice) : prog unit :=
  Bank.Bank;; userMenu input.

(** ** Notions used to state the properties *)

(** The sum of all balances of the registry, as a mathematical integer. *)
Definition total_balance (accs : list Account) : Z :=
  foldr (fun a s => balance a + s) 0 accs.

(** The mutexes a lone thread acquires, in the order it acquires them. *)
Fixpoint acquisitions {A : Type} (p : prog A) (h : heap) (L : locks) : list mutex :=
  match p with
  | Ret _ => []
  | Load k => acquisitions (k h) h L
  | Store f k => acquisitions k (f h) L
  | Lock m k => if decide (m ∈ L) then [] else m :: acquisitions k h ({[m]} ∪ L)
  | Unlock m k => acquisitions k h (L ∖ {[m]})
  end.

(** The failure kinds of the specification, and the kind it assigns to an
    operation of the menu in a given memory: this definition follows the
    specification's wording (section 7), not the code. *)
Inductive failure := InvalidAmount | InsufficientFunds | AccountNotFound.

Definition spec_check_amount (amount bal : Z) : option failure :=
  if bool_decide (amount <= 0) then Some InvalidAmount
  else if bool_decide (amount > bal) then Some InsufficientFunds
  else None.

Definition spec_failure (c : choice) (h : heap) : option failure :=
  match c with
  | CreateAccount _ _ _ => None
  | Deposit accNum amount =>
      match first_with_number accNum (accounts h) with
      | None => Some AccountNotFound
      | Some _ => if bool_decide (amount <= 0) then Some InvalidAmount else None
      end
  | Withdraw accNum amount =>
      match first_with_number accNum (accounts h) with
      | None => Some AccountNotFound
      | Some x => spec_check_amount amount (get_balance x h)
      end
  | Transfer accNum toAcc amount =>
      match first_with_number accNum (accounts h),
            first_with_number toAcc (accounts h) with
      | Some x, Some _ => spec_check_amount amount (get_balance x h)
      | _, _ => Some AccountNotFound
      end
  end.

(** The record that [userMenu] passes to [recordTransaction] for a choice,
    and the line it prints before doing so (for a creation, which is not
    recorded, the words its line begins with). *)
Definition record_of (c : choice) (id : Z) : option Transaction :=
  match c with
  | CreateAccount _ _ _ => None
  | Deposit accNum amount => Some (mkTransaction id "Deposit" amount accNum no_account)
  | Withdraw accNum amount => Some (mkTransaction id "Withdraw" amount accNum no_account)
  | Transfer accNum toAcc amount => Some (mkTransaction id "Transfer" amount accNum toAcc)
  end.

Definition success_line (c : choice) : string :=
  match c with
  | CreateAccount _ _ _ => "Account Created!"
  | Deposit _ _ => "Deposited Successfully!"
  | Withdraw _ _ => "Withdrawal Successful!"
  | Transfer _ _ _ => "Transfer Successful!"
  end.

Definition moves_money (c : choice) : bool :=
  match c with CreateAccount _ _ _ => false | _ => true end.

(** A transfer whose two numbers name the same account object. *)
Definition self_transfer (c : choice) (h : heap) : bool :=
  match c with
  | Transfer accNum toAcc _ =>
      match first_with_number accNum (accounts h),
            first_with_number toAcc (accounts h) with
      | Some x, Some y => bool_decide (x = y)
      | _, _ => false
      end
  | _ => false
  end.

(** What a successful operation leaves behind besides the changed balances:
    the line on the console and the record in the log. *)
Definition logged (line type : string) (amount fromAccount toAccount : Z) (h : heap) : heap :=
  emplace_transaction type amount fromAccount toAccount (put_line line h).

(** An operation that keeps the balances inside [0, 2147483647]: an account
    is opened with a balance in that range, and the sum that a deposit or a
    transfer which is carried out writes into the receiving account does not
    pass 2147483647. *)
Definition credit_fits (number amount : Z) (h : heap) : bool :=
  match first_with_number number (accounts h) with
  | Some x => bool_decide (get_balance x h + amount <= Int.max)
  | None => true
  end.

Definition admissible_choice (c : choice) (h : heap) : bool :=
  match c with
  | CreateAccount _ _ amount => bool_decide (0 <= amount <= Int.max)
  | Deposit accNum amount =>
      match spec_failure c h with
      | Some _ => true
      | None => credit_fits accNum amount h
      end
  | Withdraw _ _ => true
  | Transfer _ toAcc amount =>
      match spec_failure c h with
      | Some _ => true
      | None => credit_fits toAcc amount h
      end
  end.

(** Every operation of the input is admissible in the memory it finds. *)
Fixpoint admissible (input : list choice) (h : heap) : bool :=
  match input with
  | [] => true
  | c :: rest =>
      admissible_choice c h &&
      match run (menu_case c) h ∅ with
      | Returns _ h' _ => admissible rest h'
      | Blocks _ _ _ => true
      end
  end.

Definition balances_in (lo hi : Z) (h : heap) : Prop :=
  Forall (fun a => lo <= balance a <= hi) (accounts h).

(** The amount read for a new account is an [int]. *)
Definition reads_int (c : choice) : Prop :=
  match c with
  | CreateAccount _ _ amount => Int.in_range amount
  | _ => True
  end.

(** The number of the account at position [k] of a registry whose counter
    started at 1000. *)
Definition number_at (k : nat) : Z := Int.wrap (1000 + Z.of_nat k).

(** The registry numbers its accounts from 1000 in the order of creation,
    and the counter holds the number of the next one. *)
Definition numbered (h : heap) : Prop :=
  (forall k a, accounts h !! k = Some a -> accountNumber a = number_at k)
  /\ nextAccountNumber h = number_at (length (accounts h)).

(** ** Viewing accounts *)

Definition newline : string := String (Ascii.ascii_of_nat 10) EmptyString.

(** The text that [Account::display] sends to the console in one statement. *)
Definition account_text (a : Account) : string :=
  newline +:+ "Account Number: " +:+ pretty (accountNumber a) +:+
  newline +:+ "Account Name: " +:+ accountName a +:+
  newline +:+ "Balance: " +:+ pretty (balance a) +:+
  newline +:+ "Account Type: " +:+ accountType a.

Module View.

(** [Account::display]: the members are read and printed under the mutex of
    the account. *)
Definition display (this : nat) : prog unit :=
  lock_guard (accMutex this)
    (a ← load (fun h => accounts h !! this);
     print (from_option account_text "" a)).

Fixpoint display_each (positions : list nat) : prog unit :=
  match positions with
  | [] => mret tt
  | this :: rest => display this;; display_each rest
  end.

(** [Bank::displayAllAccounts]: the loop runs over the vector as it is when
    the loop starts. *)
Definition displayAllAccounts : prog unit :=
  n ← load (fun h => length (accounts h));
  display_each (seq 0 n).

(** Choice 5 of the menu, with the number read from the console. *)
Definition view_case (accNum : Z) : prog unit :=
  if bool_decide (accNum = 0) then displayAllAccounts
  else
    acc ← Bank.findAccount accNum;
    match acc with
    | Some acc => display acc
    | None => print "Account not found!"
    end.

(** The [default] branch of the menu. *)
Definition default_case : prog unit := print "Invalid Choice!".

End View.

(** What choice 5 prints for a number, in a given memory. *)
Definition viewed (accNum : Z) (h : heap) : list string :=
  if bool_decide (accNum = 0) then account_text <$> accounts h
  else
    match first_with_number accNum (accounts h) with
    | Some x => from_option (fun a => [account_text a]) [] (accounts h !! x)
    | None => ["Account not found!"]
    end.

Definition put_lines (lines : list string) (h : heap) : heap :=
  mkHeap (accounts h) (transactions h) (nextAccountNumber h) (cout h ++ lines).

(** ** Notions used to state further properties *)

(** Two account objects with the same identity: number, name and type. *)
Definition same_identity (a a' : Account) : Prop :=
  accountNumber a' = accountNumber a
  /\ accountName a' = accountName a
  /\ accountType a' = accountType a.

(** A later registry: the accounts of the earlier one, in place and with
    their identity, followed by the accounts opened since. *)
Definition grown_from (accs accs' : list Account) : Prop :=
  exists front opened, accs' = front ++ opened /\ Forall2 same_identity accs front.

Definition registered (number : Z) (h : heap) : Prop :=
  is_Some (first_with_number number (accounts h)).

(** What the code guarantees of a record it has appended. *)
Definition sound_record (h : heap) (t : Transaction) : Prop :=
  0 < amount t
  /\ registered (fromAccount t) h
  /\ ((type t = "Deposit" /\ toAccount t = no_account)
      \/ (type t = "Withdraw" /\ toAccount t = no_account)
      \/ (type t = "Transfer" /\ registered (toAccount t) h)).


(** A program that returns leaves the set of held mutexes as it found it. *)
Definition balanced {A : Type} (p : prog A) : Prop :=
  forall h L r h' L', run p h L = Returns r h' L' -> L' = L.



(** *** Two threads in sections guarded by one mutex *)

(** A program that takes and releases no mutex, as the scope of a
    [lock_guard] in this code does once the guard is in place. *)
Fixpoint lock_free {A : Type} (p : prog A) : Prop :=
  match p with
  | Ret _ => True
  | Load k => forall h, lock_free (k h)
  | Store _ k => lock_free k
  | Lock _ _ => False
  | Unlock _ _ => False
  end.

(** The result and the memory such a program ends with when nothing else
    runs in between. *)
Fixpoint effect {A : Type} (p : prog A) (h : heap) : A * heap :=
  match p with
  | Ret a => (a, h)
  | Load k => effect (k h) h
  | Store f k => effect k (f h)
  | Lock _ k => effect k h
  | Unlock _ k => effect k h
  end.

(** Where a thread that runs [lock_guard m scope] stands: before the guard,
    inside the scope with [s] left to do, or returned. *)
Inductive phase (A : Type) : Type :=
  | Waiting
  | Inside (s : prog A)
  | Done (r : A).

Arguments Waiting {A}.
Arguments Inside {A} s.
Arguments Done {A} r.

Definition at_phase {A : Type} (m : mutex) (scope : prog A) (ph : phase A) : prog A :=
  match ph with
  | Waiting => lock_guard m scope
  | Inside s => r ← s; Unlock m (Ret r)
  | Done r => Ret r
  end.

(** One scope after the other, from the memory [h]. *)
Definition in_turn {A : Type} (first second : prog A) (h : heap) : A * A * heap :=
  let '(r, h1) := effect first h in
  let '(r', h2) := effect second h1 in
  (r, r', h2).

(** What holds of every configuration that two threads in sections guarded by
    [m] can reach from the memory [h0] with the mutexes [L] held by others. *)
Definition serial_inv {A : Type} (m : mutex) (s1 s2 : prog A) (h0 : heap) (L : locks)
    (c : config A) : Prop :=
  exists ph1 ph2,
    threads c = [at_phase m s1 ph1; at_phase m s2 ph2]
    /\ match ph1, ph2 with
       | Waiting, Waiting => memory c = h0 /\ held c = L
       | Inside s, Waiting =>
           lock_free s /\ effect s (memory c) = effect s1 h0 /\ held c = {[m]} ∪ L
       | Waiting, Inside s =>
           lock_free s /\ effect s (memory c) = effect s2 h0 /\ held c = {[m]} ∪ L
       | Done r1, Waiting => effect s1 h0 = (r1, memory c) /\ held c = L
       | Waiting, Done r2 => effect s2 h0 = (r2, memory c) /\ held c = L
       | Done r1, Inside s =>
           lock_free s /\ held c = {[m]} ∪ L
           /\ exists h1, effect s1 h0 = (r1, h1) /\ effect s (memory c) = effect s2 h1
       | Inside s, Done r2 =>
           lock_free s /\ held c = {[m]} ∪ L
           /\ exists h2, effect s2 h0 = (r2, h2) /\ effect s (memory c) = effect s1 h2
       | Done r1, Done r2 =>
           held c = L
           /\ (in_turn s1 s2 h0 = (r1, r2, memory c)
               \/ in_turn s2 s1 h0 = (r2, r1, memory c))
       | Inside _, Inside _ => False
       end.

(** * Properties *)

(** Closed facts about concrete memories are settled by evaluation. *)
Ltac by_computation :=
  vm_compute; repeat split; first [reflexivity | discriminate | intros ?; discriminate].

(** ** Machine integers *)

Lemma Int_wrap_in_range z : Int.in_range (Int.wrap z).
Proof.
  unfold Int.in_range, Int.wrap, Int.min, Int.max.
  pose proof (Z.mod_pos_bound (z + 2147483648) 4294967296). lia.
Qed.

Lemma Int_wrap_id z : Int.in_range z -> Int.wrap z = z.
Proof.
  unfold Int.in_range, Int.wrap, Int.min, Int.max. intros Hz.
  rewrite Z.mod_small; lia.
Qed.

Lemma Int_add_exact x y : Int.in_range (x + y) -> Int.add x y = x + y.
Proof. apply Int_wrap_id. Qed.

Lemma Int_sub_exact x y : Int.in_range (x - y) -> Int.sub x y = x - y.
Proof. apply Int_wrap_id. Qed.

(** ** Running programs *)

Lemma run_bind {A B : Type} (p : prog A) (f : A -> prog B) h L :
  run (p ≫= f) h L =
  match run p h L with
  | Returns a h' L' => run (f a) h' L'
  | Blocks m h' L' => Blocks m h' L'
  end.
Proof.
  revert h L. induction p as [a|k IH|g k IH|m k IH|m k IH]; intros h L; simpl.
  - reflexivity.
  - apply IH.
  - apply IH.
  - destruct (decide (m ∈ L)); [reflexivity | apply IH].
  - apply IH.
Qed.

Lemma run_lock_guard {A : Type} (m : mutex) (scope : prog A) h L :
  m ∉ L ->
  run (lock_guard m scope) h L =
  match run scope h ({[m]} ∪ L) with
  | Returns a h' L' => Returns a h' (L' ∖ {[m]})
  | Blocks m' h' L' => Blocks m' h' L'
  end.
Proof.
  intros Hm. unfold lock_guard. simpl.
  rewrite decide_False by exact Hm.
  rewrite run_bind. destruct (run scope h ({[m]} ∪ L)); reflexivity.
Qed.

Lemma run_lock_guard_held {A : Type} (m : mutex) (scope : prog A) h L :
  m ∈ L -> run (lock_guard m scope) h L = Blocks m h L.
Proof. intros Hm. unfold lock_guard. simpl. by rewrite decide_True. Qed.

Lemma release_acquired (m : mutex) (L : locks) : m ∉ L -> ({[m]} ∪ L) ∖ {[m]} = L.
Proof.
  intros Hm. apply set_eq. intros x.
  rewrite elem_of_difference, elem_of_union, elem_of_singleton.
  split; [tauto|]. intros Hx. split; [tauto|]. by intros ->.
Qed.

Lemma run_rejects this amount h L :
  run (rejects this amount) h L =
  Returns (bool_decide (amount <= 0) || bool_decide (amount > get_balance this h)) h L.
Proof. unfold rejects. destruct (bool_decide (amount <= 0)); reflexivity. Qed.

(** ** The balance cell *)

Lemma get_balance_lookup this h a :
  accounts h !! this = Some a -> get_balance this h = balance a.
Proof. unfold get_balance. by intros ->. Qed.

Lemma get_set_balance this v h :
  (this < length (accounts h))%nat -> get_balance this (set_balance this v h) = v.
Proof.
  intros Hlt. unfold get_balance, set_balance. simpl.
  destruct (lookup_lt_is_Some_2 _ _ Hlt) as [a Ha].
  by rewrite list_lookup_alter_eq, Ha.
Qed.

Lemma get_set_balance_ne this other v h :
  this <> other -> get_balance other (set_balance this v h) = get_balance other h.
Proof.
  intros Hne. unfold get_balance, set_balance. simpl.
  by rewrite list_lookup_alter_ne.
Qed.

Lemma lookup_set_balance_ne this other v h :
  this <> other -> accounts (set_balance this v h) !! other = accounts h !! other.
Proof. intros Hne. unfold set_balance. simpl. by rewrite list_lookup_alter_ne. Qed.

(** ** The three methods of an account, run by one thread *)

Lemma run_deposit this amount h L :
  accMutex this ∉ L ->
  run (Account.deposit this amount) h L =
  if bool_decide (amount <= 0) then Returns false h L
  else Returns true (set_balance this (Int.add (get_balance this h) amount) h) L.
Proof.
  intros Hm. unfold Account.deposit.
  destruct (bool_decide (amount <= 0)); [reflexivity|].
  rewrite run_lock_guard by exact Hm. simpl.
  by rewrite release_acquired.
Qed.

Lemma run_withdraw this amount h L :
  accMutex this ∉ L ->
  run (Account.withdraw this amount) h L =
  if bool_decide (amount <= 0) || bool_decide (amount > get_balance this h)
  then Returns false h L
  else Returns true (set_balance this (Int.sub (get_balance this h) amount) h) L.
Proof.
  intros Hm. unfold Account.withdraw.
  rewrite run_lock_guard by exact Hm.
  rewrite run_bind, run_rejects.
  destruct (bool_decide (amount <= 0) || bool_decide (amount > get_balance this h));
    simpl; by rewrite release_acquired.
Qed.

Lemma run_transfer this to amount h L :
  this <> to -> accMutex this ∉ L -> accMutex to ∉ L ->
  run (Account.transfer this to amount) h L =
  if bool_decide (amount <= 0) || bool_decide (amount > get_balance this h)
  then Returns false h L
  else
    let h1 := set_balance this (Int.sub (get_balance this h) amount) h in
    Returns true (set_balance to (Int.add (get_balance to h1) amount) h1) L.
Proof.
  intros Hne Hthis Hto. unfold Account.transfer.
  rewrite run_lock_guard by exact Hthis.
  rewrite run_bind, run_rejects.
  destruct (bool_decide (amount <= 0) || bool_decide (amount > get_balance this h)).
  - simpl. by rewrite release_acquired.
  - cbn [run load store bind mbind prog_bind mret prog_ret].
    assert (accMutex to ∉ ({[accMutex this]} ∪ L : locks)) as Hto'.
    { rewrite elem_of_union, elem_of_singleton. intros [Heq|Hin]; [|done].
      by injection Heq as ->. }
    rewrite run_lock_guard by exact Hto'. simpl.
    by rewrite !release_acquired.
Qed.

(** The second guard of a transfer to the same object asks for the mutex the
    first guard holds. *)
Lemma run_transfer_self this amount h L :
  accMutex this ∉ L ->
  run (Account.transfer this this amount) h L =
  if bool_decide (amount <= 0) || bool_decide (amount > get_balance this h)
  then Returns false h L
  else Blocks (accMutex this)
              (set_balance this (Int.sub (get_balance this h) amount) h)
              ({[accMutex this]} ∪ L).
Proof.
  intros Hthis. unfold Account.transfer.
  rewrite run_lock_guard by exact Hthis.
  rewrite run_bind, run_rejects.
  destruct (bool_decide (amount <= 0) || bool_decide (amount > get_balance this h)).
  - simpl. by rewrite release_acquired.
  - cbn [run load store bind mbind prog_bind mret prog_ret].
    rewrite run_lock_guard_held; [reflexivity|].
    apply elem_of_union_l, elem_of_singleton. reflexivity.
Qed.

(** ** Withdrawals and deposits *)

(** C4: for an account whose mutex is free, [withdraw(amount)] returns [true]
    and lowers the balance by exactly [amount] when [0 < amount <= balance];
    it returns [false] and leaves the memory as it was when [amount] exceeds
    the balance (InsufficientFunds) and when [amount <= 0] (InvalidAmount).
    The method has the one failure value [false] for both conditions. *)
Theorem withdraw_correct (this : nat) (amount : Z) (h : heap) (L : locks) (a : Account) :
  accounts h !! this = Some a ->
  Int.in_range (balance a) ->
  accMutex this ∉ L ->
  (0 < amount <= balance a ->
     run (Account.withdraw this amount) h L
     = Returns true (set_balance this (balance a - amount) h) L
     /\ get_balance this (set_balance this (balance a - amount) h) = balance a - amount)
  /\ (amount > balance a -> run (Account.withdraw this amount) h L = Returns false h L)
  /\ (amount <= 0 -> run (Account.withdraw this amount) h L = Returns false h L).
Proof.
  intros Ha Hr Hm. rewrite run_withdraw by exact Hm.
  rewrite (get_balance_lookup _ _ _ Ha).
  split; [|split].
  - intros Hamt. split.
    + rewrite bool_decide_eq_false_2, bool_decide_eq_false_2 by lia. simpl.
      rewrite Int_sub_exact; [reflexivity|].
      unfold Int.in_range, Int.min, Int.max in *. lia.
    + apply get_set_balance. by eapply lookup_lt_Some.
  - intros Hgt. rewrite (bool_decide_eq_true_2 (amount > balance a)) by lia.
    by rewrite orb_true_r.
  - intros Hle. by rewrite (bool_decide_eq_true_2 (amount <= 0)) by lia.
Qed.

Lemma withdraw_correct_witness :
  let h := mkHeap [mkAccount 1000 "A" 100 "Savings"] [] 1001 [] in
  (0 < 30 <= 100 ->
     run (Account.withdraw 0 30) h ∅
     = Returns true (set_balance 0 (100 - 30) h) ∅
     /\ get_balance 0 (set_balance 0 (100 - 30) h) = 100 - 30)
  /\ (30 > 100 -> run (Account.withdraw 0 30) h ∅ = Returns false h ∅)
  /\ (30 <= 0 -> run (Account.withdraw 0 30) h ∅ = Returns false h ∅).
Proof.
  intros h.
  apply (withdraw_correct 0 30 h ∅ (mkAccount 1000 "A" 100 "Savings")).
  - reflexivity.
  - unfold Int.in_range, Int.min, Int.max. simpl. lia.
  - apply not_elem_of_empty.
Defined.

(** C5, as the code has it: for an account whose mutex is free,
    [deposit(amount)] returns [true] and raises the balance by exactly
    [amount] when [amount > 0] and the sum still fits an [int]
    ([balance + amount <= 2147483647]); it returns [false] and leaves the
    memory as it was when [amount <= 0]. *)
Theorem deposit_correct (this : nat) (amount : Z) (h : heap) (L : locks) (a : Account) :
  accounts h !! this = Some a ->
  Int.in_range (balance a) ->
  accMutex this ∉ L ->
  (amount > 0 -> balance a + amount <= Int.max ->
     run (Account.deposit this amount) h L
     = Returns true (set_balance this (balance a + amount) h) L
     /\ get_balance this (set_balance this (balance a + amount) h) = balance a + amount)
  /\ (amount <= 0 -> run (Account.deposit this amount) h L = Returns false h L).
Proof.
  intros Ha Hr Hm. rewrite run_deposit by exact Hm.
  rewrite (get_balance_lookup _ _ _ Ha).
  split.
  - intros Hpos Hfit. split.
    + rewrite bool_decide_eq_false_2 by lia.
      rewrite Int_add_exact; [reflexivity|].
      unfold Int.in_range, Int.min, Int.max in *. lia.
    + apply get_set_balance. by eapply lookup_lt_Some.
  - intros Hle. by rewrite bool_decide_eq_true_2 by lia.
Qed.

Lemma deposit_correct_witness :
  let h := mkHeap [mkAccount 1000 "A" 100 "Savings"] [] 1001 [] in
  (30 > 0 -> 100 + 30 <= Int.max ->
     run (Account.deposit 0 30) h ∅
     = Returns true (set_balance 0 (100 + 30) h) ∅
     /\ get_balance 0 (set_balance 0 (100 + 30) h) = 100 + 30)
  /\ (30 <= 0 -> run (Account.deposit 0 30) h ∅ = Returns false h ∅).
Proof.
  intros h.
  apply (deposit_correct 0 30 h ∅ (mkAccount 1000 "A" 100 "Savings")).
  - reflexivity.
  - unfold Int.in_range, Int.min, Int.max. simpl. lia.
  - apply not_elem_of_empty.
Defined.

(** C5 fails as stated: a deposit of 1 into an account that holds
    2147483647 returns [true], and the balance it leaves is not one more than
    before. *)
Lemma deposit_overflows :
  let h := mkHeap [mkAccount 1000 "A" 2147483647 "Savings"] [] 1001 [] in
  run (Account.deposit 0 1) h ∅
  = Returns true (mkHeap [mkAccount 1000 "A" (-2147483648) "Savings"] [] 1001 []) ∅
  /\ ~ (exists h', run (Account.deposit 0 1) h ∅ = Returns true h' ∅
                   /\ get_balance 0 h' = get_balance 0 h + 1).
Proof.
  intros h. split; [by vm_compute|].
  intros (h' & Hrun & Hbal). vm_compute in Hrun.
  injection Hrun as <-. vm_compute in Hbal. discriminate.
Qed.

(** ** The methods of the bank and the cases of the menu, run by one thread *)

Lemma run_createAccount name type initialBalance h L :
  globalMutex ∉ L ->
  run (Bank.createAccount name type initialBalance) h L =
  Returns (nextAccountNumber h)
          (mkHeap (accounts h ++ [mkAccount (nextAccountNumber h) name initialBalance type])
                  (transactions h) (Int.add (nextAccountNumber h) 1) (cout h))
          L.
Proof.
  intros Hm. unfold Bank.createAccount.
  rewrite run_lock_guard by exact Hm. simpl.
  by rewrite release_acquired.
Qed.

Lemma run_recordTransaction type amount fromAccount toAccount h L :
  globalMutex ∉ L ->
  run (Bank.recordTransaction type amount fromAccount toAccount) h L =
  Returns tt (emplace_transaction type amount fromAccount toAccount h) L.
Proof.
  intros Hm. unfold Bank.recordTransaction.
  rewrite run_lock_guard by exact Hm. simpl.
  by rewrite release_acquired.
Qed.

Lemma run_findAccount number h L :
  run (Bank.findAccount number) h L = Returns (first_with_number number (accounts h)) h L.
Proof. reflexivity. Qed.

Lemma run_print line h L : run (print line) h L = Returns tt (put_line line h) L.
Proof. reflexivity. Qed.

Lemma run_reported (line type : string) (amount fromAccount toAccount : Z) h :
  run (print line;; Bank.recordTransaction type amount fromAccount toAccount) h ∅ =
  Returns tt (logged line type amount fromAccount toAccount h) ∅.
Proof.
  change (print line;; Bank.recordTransaction type amount fromAccount toAccount)
    with (print line ≫= fun _ => Bank.recordTransaction type amount fromAccount toAccount).
  rewrite run_bind, run_print.
  by rewrite run_recordTransaction by apply not_elem_of_empty.
Qed.

Lemma run_menu_create name type amount h :
  run (menu_case (CreateAccount name type amount)) h ∅ =
  Returns tt
    (put_line ("Account Created! Your Account Number is: " +:+ pretty (nextAccountNumber h))
       (mkHeap (accounts h ++ [mkAccount (nextAccountNumber h) name amount type])
               (transactions h) (Int.add (nextAccountNumber h) 1) (cout h)))
    ∅.
Proof.
  unfold menu_case.
  rewrite run_bind, run_createAccount by apply not_elem_of_empty.
  apply run_print.
Qed.

Lemma run_menu_deposit accNum amount h :
  run (menu_case (Deposit accNum amount)) h ∅ =
  match first_with_number accNum (accounts h) with
  | None => Returns tt (put_line "Invalid Account!" h) ∅
  | Some x =>
      if bool_decide (amount <= 0) then Returns tt h ∅
      else Returns tt
             (logged "Deposited Successfully!" "Deposit" amount accNum no_account
                (set_balance x (Int.add (get_balance x h) amount) h)) ∅
  end.
Proof.
  unfold menu_case. rewrite run_bind, run_findAccount.
  destruct (first_with_number accNum (accounts h)) as [x|]; [|apply run_print].
  rewrite run_bind, run_deposit by apply not_elem_of_empty.
  destruct (bool_decide (amount <= 0)); [reflexivity|].
  apply run_reported.
Qed.

Lemma run_menu_withdraw accNum amount h :
  run (menu_case (Withdraw accNum amount)) h ∅ =
  match first_with_number accNum (accounts h) with
  | None => Returns tt (put_line "Invalid Account!" h) ∅
  | Some x =>
      if bool_decide (amount <= 0) || bool_decide (amount > get_balance x h)
      then Returns tt h ∅
      else Returns tt
             (logged "Withdrawal Successful!" "Withdraw" amount accNum no_account
                (set_balance x (Int.sub (get_balance x h) amount) h)) ∅
  end.
Proof.
  unfold menu_case. rewrite run_bind, run_findAccount.
  destruct (first_with_number accNum (accounts h)) as [x|]; [|apply run_print].
  rewrite run_bind, run_withdraw by apply not_elem_of_empty.
  destruct (bool_decide (amount <= 0) || bool_decide (amount > get_balance x h));
    [reflexivity|].
  apply run_reported.
Qed.

Lemma run_menu_transfer accNum toAcc amount h :
  run (menu_case (Transfer accNum toAcc amount)) h ∅ =
  match first_with_number accNum (accounts h) with
  | None => Returns tt (put_line "Invalid Accounts!" h) ∅
  | Some x =>
      match first_with_number toAcc (accounts h) with
      | None => Returns tt h ∅
      | Some y =>
          if bool_decide (amount <= 0) || bool_decide (amount > get_balance x h)
          then Returns tt h ∅
          else
            let h1 := set_balance x (Int.sub (get_balance x h) amount) h in
            if decide (x = y) then Blocks (accMutex x) h1 {[accMutex x]}
            else Returns tt
                   (logged "Transfer Successful!" "Transfer" amount accNum toAcc
                      (set_balance y (Int.add (get_balance y h1) amount) h1)) ∅
      end
  end.
Proof.
  unfold menu_case. rewrite run_bind, run_findAccount.
  destruct (first_with_number accNum (accounts h)) as [x|]; [|apply run_print].
  rewrite run_bind, run_findAccount.
  destruct (first_with_number toAcc (accounts h)) as [y|]; [|reflexivity].
  rewrite run_bind. destruct (decide (x = y)) as [<-|Hne].
  - rewrite run_transfer_self by apply not_elem_of_empty.
    destruct (bool_decide (amount <= 0) || bool_decide (amount > get_balance x h));
      [reflexivity|].
    simpl. by rewrite (right_id_L ∅ (∪)).
  - rewrite run_transfer by (done || apply not_elem_of_empty).
    destruct (bool_decide (amount <= 0) || bool_decide (amount > get_balance x h));
      [reflexivity|].
    apply run_reported.
Qed.

(** The example of the specification: open A with 100 and B with 50, move 30
    from A to B, then try to move 1000. *)
Lemma scenario :
  run (main [CreateAccount "A" "Savings" 100; CreateAccount "B" "Current" 50;
             Transfer 1000 1001 30; Transfer 1000 1001 1000]) initial ∅
  = Returns tt
      (mkHeap [mkAccount 1000 "A" 70 "Savings"; mkAccount 1001 "B" 80 "Current"]
              [mkTransaction 1 "Transfer" 30 1000 1001]
              1002
              ["Welcome to the Bank!";
               "Account Created! Your Account Number is: 1000";
               "Account Created! Your Account Number is: 1001";
               "Transfer Successful!"])
      ∅.
Proof. vm_compute. reflexivity. Qed.

(** ** Looking an account up *)

Lemma first_with_number_Some number accs x :
  first_with_number number accs = Some x ->
  exists a, accs !! x = Some a /\ accountNumber a = number.
Proof.
  unfold first_with_number. intros Hf.
  destruct (list_find _ accs) as [[i a]|] eqn:Hfind; [|discriminate].
  simpl in Hf. injection Hf as ->.
  apply list_find_Some in Hfind as (Ha & Hn & _). eauto.
Qed.

Lemma first_with_number_ne n1 n2 accs x y :
  first_with_number n1 accs = Some x ->
  first_with_number n2 accs = Some y ->
  n1 <> n2 -> x <> y.
Proof.
  intros (a & Ha & Hna)%first_with_number_Some (b & Hb & Hnb)%first_with_number_Some Hne ->.
  congruence.
Qed.

(** ** Creating accounts *)

(** C9: [createAccount] checks nothing about [initialBalance]: whatever the
    value, negative and zero included, the call returns the current counter
    and leaves a new account at the end of the registry that carries this
    number and exactly this balance. *)
Theorem createAccount_any_balance (name type : string) (initialBalance : Z)
    (h : heap) (L : locks) :
  globalMutex ∉ L ->
  exists h',
    run (Bank.createAccount name type initialBalance) h L
    = Returns (nextAccountNumber h) h' L
    /\ accounts h' = accounts h ++ [mkAccount (nextAccountNumber h) name initialBalance type]
    /\ get_balance (length (accounts h)) h' = initialBalance
    /\ transactions h' = transactions h.
Proof.
  intros Hm. eexists. split; [by apply run_createAccount|].
  simpl. split; [reflexivity|]. split; [|reflexivity].
  unfold get_balance. simpl.
  by rewrite lookup_app_r, Nat.sub_diag by lia.
Qed.

Lemma createAccount_any_balance_witness :
(globalMutex ∉ (∅ : locks)) /\
  exists h',
    run (Bank.createAccount "A" "Savings" (-5)) initial ∅
    = Returns (nextAccountNumber initial) h' ∅
    /\ accounts h' = accounts initial ++ [mkAccount (nextAccountNumber initial) "A" (-5) "Savings"]
    /\ get_balance (length (accounts initial)) h' = -5
    /\ transactions h' = transactions initial.
Proof.
  split; [apply not_elem_of_empty|].
  apply (createAccount_any_balance "A" "Savings" (-5) initial ∅).
  apply not_elem_of_empty.
Defined.

(** ** Transfers between two accounts *)

Lemma total_balance_alter (accs : list Account) (i : nat) (a : Account) (v : Z) :
  accs !! i = Some a ->
  total_balance (alter (with_balance v) i accs) = total_balance accs - balance a + v.
Proof.
  unfold total_balance.
  revert i. induction accs as [|b accs IH]; intros i Hi; [done|].
  destruct i as [|i].
  - simpl in *. injection Hi as ->. lia.
  - change (alter (with_balance v) (S i) (b :: accs))
      with (b :: alter (with_balance v) i accs).
    cbn [foldr]. rewrite (IH i Hi). lia.
Qed.

Lemma total_balance_set this v h a :
  accounts h !! this = Some a ->
  total_balance (accounts (set_balance this v h)) = total_balance (accounts h) - balance a + v.
Proof. intros Ha. unfold set_balance. simpl. by apply total_balance_alter. Qed.

(** C2, as the code has it: for two distinct registered accounts X and Y and
    an amount A with [0 < A <= balance(X)] whose credit still fits an [int]
    ([balance(Y) + A <= 2147483647]), the transfer succeeds, takes exactly A
    from X, adds exactly A to Y, leaves every other account as it was and
    leaves the sum of all balances unchanged. *)
Theorem transfer_conserves (accNum toAcc amount : Z) (h : heap) (x y : nat) :
  first_with_number accNum (accounts h) = Some x ->
  first_with_number toAcc (accounts h) = Some y ->
  accNum <> toAcc ->
  Int.in_range (get_balance x h) ->
  Int.in_range (get_balance y h) ->
  0 < amount <= get_balance x h ->
  get_balance y h + amount <= Int.max ->
  exists h',
    run (Account.transfer x y amount) h ∅ = Returns true h' ∅
    /\ run (menu_case (Transfer accNum toAcc amount)) h ∅
       = Returns tt (logged "Transfer Successful!" "Transfer" amount accNum toAcc h') ∅
    /\ get_balance x h' = get_balance x h - amount
    /\ get_balance y h' = get_balance y h + amount
    /\ (forall z, z <> x -> z <> y -> accounts h' !! z = accounts h !! z)
    /\ total_balance (accounts h') = total_balance (accounts h).
Proof.
  intros Hx Hy Hnum Hrx Hry Hamt Hfit.
  assert (x <> y) as Hne by eauto using first_with_number_ne.
  destruct (first_with_number_Some _ _ _ Hx) as (ax & Hax & _).
  destruct (first_with_number_Some _ _ _ Hy) as (ay & Hay & _).
  pose proof (lookup_lt_Some _ _ _ Hax) as Hltx.
  pose proof (lookup_lt_Some _ _ _ Hay) as Hlty.
  set (h1 := set_balance x (get_balance x h - amount) h).
  assert (Int.sub (get_balance x h) amount = get_balance x h - amount) as Hsub.
  { apply Int_sub_exact. unfold Int.in_range, Int.min, Int.max in *. lia. }
  assert (get_balance y h1 = get_balance y h) as Hy1
    by (apply get_set_balance_ne; done).
  assert (Int.add (get_balance y h) amount = get_balance y h + amount) as Hadd.
  { apply Int_add_exact. unfold Int.in_range, Int.min, Int.max in *. lia. }
  exists (set_balance y (get_balance y h + amount) h1).
  split; [|split; [|split; [|split; [|split]]]].
  - rewrite run_transfer by (done || apply not_elem_of_empty).
    rewrite bool_decide_eq_false_2, bool_decide_eq_false_2 by lia. simpl.
    rewrite Hsub. fold h1. by rewrite Hy1, Hadd.
  - rewrite run_menu_transfer, Hx, Hy.
    rewrite bool_decide_eq_false_2, bool_decide_eq_false_2 by lia. simpl.
    rewrite decide_False by done.
    rewrite Hsub. fold h1. by rewrite Hy1, Hadd.
  - rewrite get_set_balance_ne by done. by apply get_set_balance.
  - apply get_set_balance. unfold h1, set_balance. simpl. by rewrite length_alter.
  - intros z Hzx Hzy.
    rewrite lookup_set_balance_ne by done. by apply lookup_set_balance_ne.
  - assert (accounts h1 !! y = Some ay) as Hay1
      by (unfold h1; rewrite lookup_set_balance_ne; done).
    rewrite (total_balance_set _ _ _ _ Hay1).
    unfold h1. rewrite (total_balance_set _ _ _ _ Hax).
    rewrite (get_balance_lookup _ _ _ Hax), (get_balance_lookup _ _ _ Hay). lia.
Qed.

Lemma transfer_conserves_witness :
  let h := mkHeap [mkAccount 1000 "A" 100 "Savings"; mkAccount 1001 "B" 50 "Current"]
                  [] 1002 [] in
  exists h',
    run (Account.transfer 0 1 30) h ∅ = Returns true h' ∅
    /\ run (menu_case (Transfer 1000 1001 30)) h ∅
       = Returns tt (logged "Transfer Successful!" "Transfer" 30 1000 1001 h') ∅
    /\ get_balance 0 h' = get_balance 0 h - 30
    /\ get_balance 1 h' = get_balance 1 h + 30
    /\ (forall z, z <> 0%nat -> z <> 1%nat -> accounts h' !! z = accounts h !! z)
    /\ total_balance (accounts h') = total_balance (accounts h).
Proof.
  intros h.
  apply (transfer_conserves 1000 1001 30 h 0 1).
  - reflexivity.
  - reflexivity.
  - lia.
  - by_computation.
  - by_computation.
  - by_computation.
  - by_computation.
Defined.

(** C2 fails as stated: with balance(X) = 1 and balance(Y) = 2147483647 a
    transfer of 1 from X to Y returns [true], yet Y does not end one higher
    and the sum of the balances is not what it was. *)
Lemma transfer_credit_overflows :
  let h := mkHeap [mkAccount 1000 "X" 1 "Savings";
                   mkAccount 1001 "Y" 2147483647 "Savings"] [] 1002 [] in
  let h' := mkHeap [mkAccount 1000 "X" 0 "Savings";
                    mkAccount 1001 "Y" (-2147483648) "Savings"] [] 1002 [] in
  0 < 1 <= get_balance 0 h
  /\ run (Account.transfer 0 1 1) h ∅ = Returns true h' ∅
  /\ get_balance 1 h' <> get_balance 1 h + 1
  /\ total_balance (accounts h') <> total_balance (accounts h).
Proof.
  intros h h'. split; [by_computation|].
  split; [by_computation|]. split; by_computation.
Qed.

(** ** One thread alone, step by step *)

(** [run] is the lone thread stepping until it finishes or waits: a call that
    [Blocks] has reached a [Lock] on a held mutex, where it cannot move. *)
Lemma run_alone {A : Type} (p : prog A) (h : heap) (L : locks) :
  match run p h L with
  | Returns a h' L' =>
      exists n, schedule (replicate n 0%nat) (mkConfig [p] h L)
                = Some (mkConfig [Ret a] h' L')
  | Blocks m h' L' =>
      exists n k, schedule (replicate n 0%nat) (mkConfig [p] h L)
                  = Some (mkConfig [Lock m k] h' L') /\ m ∈ L'
  end.
Proof.
  revert h L. induction p as [a|k IH|g k IH|m k IH|m k IH]; intros h L; simpl.
  - by exists 0%nat.
  - specialize (IH h h L). destruct (run (k h) h L).
    + destruct IH as [n Hn]. by exists (S n).
    + destruct IH as (n & k' & Hn & Hin). by exists (S n), k'.
  - specialize (IH (g h) L). destruct (run k (g h) L).
    + destruct IH as [n Hn]. by exists (S n).
    + destruct IH as (n & k' & Hn & Hin). by exists (S n), k'.
  - destruct (decide (m ∈ L)) as [Hin|Hout].
    + by exists 0%nat, k.
    + specialize (IH h ({[m]} ∪ L)). destruct (run k h ({[m]} ∪ L)).
      * destruct IH as [n Hn]. exists (S n). simpl.
        unfold pool_step. simpl. by rewrite decide_False.
      * destruct IH as (n & k' & Hn & Hin). exists (S n), k'. simpl.
        unfold pool_step. simpl. by rewrite decide_False.
  - specialize (IH h (L ∖ {[m]})). destruct (run k h (L ∖ {[m]})).
    + destruct IH as [n Hn]. by exists (S n).
    + destruct IH as (n & k' & Hn & Hin). by exists (S n), k'.
Qed.

Lemma waiting_alone {A : Type} (m : mutex) (k : prog A) (h : heap) (L : locks) :
  m ∈ L -> deadlocked (mkConfig [Lock m k] h L).
Proof.
  intros Hin. split.
  - intros [|t]; unfold pool_step; simpl; [by rewrite decide_True|done].
  - by exists 0%nat, (Lock m k).
Qed.

(** ** A transfer from an account to itself *)

(** C10 does not hold of the code: for a registered account x and an amount
    with [0 < a <= balance(x)], the transfer from x to x takes the amount
    from the balance and then asks for the mutex of x a second time while
    still holding it.  The call does not return, and the lone thread is
    left waiting with the balance lowered by [a]. *)
Theorem self_transfer_never_returns (accNum amount : Z) (h : heap) (x : nat) :
  first_with_number accNum (accounts h) = Some x ->
  Int.in_range (get_balance x h) ->
  0 < amount <= get_balance x h ->
  let h1 := set_balance x (get_balance x h - amount) h in
  run (menu_case (Transfer accNum accNum amount)) h ∅
  = Blocks (accMutex x) h1 {[accMutex x]}
  /\ get_balance x h1 = get_balance x h - amount
  /\ exists n k,
       schedule (replicate n 0%nat)
                (mkConfig [menu_case (Transfer accNum accNum amount)] h ∅)
       = Some (mkConfig [Lock (accMutex x) k] h1 {[accMutex x]})
       /\ deadlocked (mkConfig [Lock (accMutex x) k] h1 {[accMutex x]}).
Proof.
  intros Hx Hr Hamt h1.
  assert (run (menu_case (Transfer accNum accNum amount)) h ∅
          = Blocks (accMutex x) h1 {[accMutex x]}) as Hrun.
  { rewrite run_menu_transfer, Hx.
    rewrite bool_decide_eq_false_2, bool_decide_eq_false_2 by lia. simpl.
    rewrite decide_True by done.
    rewrite Int_sub_exact; [done|].
    unfold Int.in_range, Int.min, Int.max in *. lia. }
  split; [exact Hrun|]. split.
  - apply get_set_balance.
    destruct (first_with_number_Some _ _ _ Hx) as (a & Ha & _).
    by eapply lookup_lt_Some.
  - pose proof (run_alone (menu_case (Transfer accNum accNum amount)) h ∅) as Halone.
    rewrite Hrun in Halone. destruct Halone as (n & k & Hn & Hin).
    exists n, k. split; [exact Hn|]. by apply waiting_alone.
Qed.

Lemma self_transfer_never_returns_witness :
  let h := mkHeap [mkAccount 1000 "A" 100 "Savings"] [] 1001 [] in
  let h1 := set_balance 0 (get_balance 0 h - 30) h in
  run (menu_case (Transfer 1000 1000 30)) h ∅
  = Blocks (accMutex 0) h1 {[accMutex 0]}
  /\ get_balance 0 h1 = get_balance 0 h - 30
  /\ exists n k,
       schedule (replicate n 0%nat)
                (mkConfig [menu_case (Transfer 1000 1000 30)] h ∅)
       = Some (mkConfig [Lock (accMutex 0) k] h1 {[accMutex 0]})
       /\ deadlocked (mkConfig [Lock (accMutex 0) k] h1 {[accMutex 0]}).
Proof.
  intros h.
  apply (self_transfer_never_returns 1000 30 h 0).
  - reflexivity.
  - by_computation.
  - by_computation.
Defined.

(** ** The order of the two locks of a transfer *)

Lemma transfer_locks_from_then_to (this to : nat) (amount : Z) (h : heap) (L : locks) :
  this <> to -> accMutex this ∉ L -> accMutex to ∉ L ->
  0 < amount <= get_balance this h ->
  acquisitions (Account.transfer this to amount) h L = [accMutex this; accMutex to].
Proof.
  intros Hne Hthis Hto Hamt.
  unfold Account.transfer, lock_guard, rejects.
  rewrite bool_decide_eq_false_2 by lia.
  cbn [acquisitions bind mbind prog_bind mret prog_ret load store].
  rewrite decide_False by exact Hthis.
  rewrite bool_decide_eq_false_2 by lia.
  cbn [acquisitions bind mbind prog_bind mret prog_ret load store].
  rewrite decide_False; [reflexivity|].
  rewrite elem_of_union, elem_of_singleton. intros [Heq|Hin]; [|done].
  by injection Heq as ->.
Qed.

Lemma schedule_first {A : Type} (p q : prog A) h L ts :
  schedule (0%nat :: ts) (mkConfig [p; q] h L)
  = match thread_step p h L with
    | Some (p', h', L') => schedule ts (mkConfig [p'; q] h' L')
    | None => None
    end.
Proof.
  simpl. unfold pool_step. simpl.
  by destruct (thread_step p h L) as [[[p' h'] L']|].
Qed.

Lemma schedule_second {A : Type} (p q : prog A) h L ts :
  schedule (1%nat :: ts) (mkConfig [p; q] h L)
  = match thread_step q h L with
    | Some (q', h', L') => schedule ts (mkConfig [p; q'] h' L')
    | None => None
    end.
Proof.
  simpl. unfold pool_step. simpl.
  by destruct (thread_step q h L) as [[[q' h'] L']|].
Qed.

(** One step of the scheduler on a pool of two threads. *)
Ltac thread_steps lem :=
  etrans; [apply lem|];
  cbn [thread_step bind mbind prog_bind mret prog_ret load store].

(** C1 does not hold of the code: [transfer] takes the mutex of the paying
    account first and the mutex of the receiving account second, whatever
    their identities, so that of two opposite transfers one locks the higher
    account first.  When two threads transfer in opposite directions between
    two accounts and each has made its debit before the other goes on, each
    holds the mutex of its own account and waits for the mutex of the other:
    no thread can move any more. *)
Theorem opposite_transfers_deadlock (x y : nat) (a1 a2 : Z) (h : heap) (L : locks) :
  x <> y -> accMutex x ∉ L -> accMutex y ∉ L ->
  0 < a1 <= get_balance x h -> 0 < a2 <= get_balance y h ->
  acquisitions (Account.transfer x y a1) h L = [accMutex x; accMutex y]
  /\ acquisitions (Account.transfer y x a2) h L = [accMutex y; accMutex x]
  /\ exists c,
       schedule [0; 0; 0; 0; 1; 1; 1; 1]%nat
                (mkConfig [Account.transfer x y a1; Account.transfer y x a2] h L)
       = Some c
       /\ accMutex x ∈ held c /\ accMutex y ∈ held c
       /\ deadlocked c.
Proof.
  intros Hne Hx Hy Ha1 Ha2.
  split; [by apply transfer_locks_from_then_to|].
  split; [by apply transfer_locks_from_then_to|].
  assert (accMutex y ∉ ({[accMutex x]} ∪ L : locks)) as Hy'.
  { rewrite elem_of_union, elem_of_singleton. intros [[= ->]|Hin]; done. }
  eexists. split.
  - unfold Account.transfer, lock_guard, rejects.
    rewrite (bool_decide_eq_false_2 (a1 <= 0)) by lia.
    rewrite (bool_decide_eq_false_2 (a2 <= 0)) by lia.
    thread_steps @schedule_first. rewrite decide_False by exact Hx.
    thread_steps @schedule_first.
    rewrite (bool_decide_eq_false_2 (a1 > get_balance x h)) by lia.
    cbn [bind mbind prog_bind mret prog_ret load store].
    thread_steps @schedule_first.
    thread_steps @schedule_first.
    thread_steps @schedule_second. rewrite decide_False by exact Hy'.
    thread_steps @schedule_second.
    rewrite get_set_balance_ne by done.
    rewrite (bool_decide_eq_false_2 (a2 > get_balance y h)) by lia.
    cbn [bind mbind prog_bind mret prog_ret load store].
    thread_steps @schedule_second.
    thread_steps @schedule_second.
    reflexivity.
  - cbn [held].
    assert (accMutex x ∈ ({[accMutex y]} ∪ ({[accMutex x]} ∪ L) : locks)) as Hinx
      by (apply elem_of_union_r, elem_of_union_l, elem_of_singleton; reflexivity).
    assert (accMutex y ∈ ({[accMutex y]} ∪ ({[accMutex x]} ∪ L) : locks)) as Hiny
      by (apply elem_of_union_l, elem_of_singleton; reflexivity).
    split; [exact Hinx|]. split; [exact Hiny|]. split.
    + intros [|[|t]]; unfold pool_step; cbn; [| |done].
      * by rewrite decide_True.
      * by rewrite decide_True.
    + exists 0%nat. eexists. split; reflexivity.
Qed.

Lemma opposite_transfers_deadlock_witness :
  let h := mkHeap [mkAccount 1000 "A" 100 "Savings"; mkAccount 1001 "B" 50 "Current"]
                  [] 1002 [] in
  acquisitions (Account.transfer 0 1 30) h ∅ = [accMutex 0; accMutex 1]
  /\ acquisitions (Account.transfer 1 0 20) h ∅ = [accMutex 1; accMutex 0]
  /\ exists c,
       schedule [0; 0; 0; 0; 1; 1; 1; 1]%nat
                (mkConfig [Account.transfer 0 1 30; Account.transfer 1 0 20] h ∅)
       = Some c
       /\ accMutex 0 ∈ held c /\ accMutex 1 ∈ held c
       /\ deadlocked c.
Proof.
  intros h.
  apply (opposite_transfers_deadlock 0 1 30 20 h ∅).
  - lia.
  - apply not_elem_of_empty.
  - apply not_elem_of_empty.
  - by_computation.
  - by_computation.
Defined.

(** The same at the level of the menu: two callers that ask for a transfer
    from 1000 to 1001 and for one from 1001 to 1000 end up, under the schedule
    given, each holding one account and waiting for the other. *)
Lemma menu_transfers_deadlock :
  let h := mkHeap [mkAccount 1000 "A" 100 "Savings"; mkAccount 1001 "B" 50 "Current"]
                  [] 1002 [] in
  exists c,
    schedule [0; 0; 0; 0; 0; 0; 1; 1; 1; 1; 1; 1]%nat
             (mkConfig [menu_case (Transfer 1000 1001 30);
                        menu_case (Transfer 1001 1000 20)] h ∅)
    = Some c
    /\ held c = {[accMutex 0; accMutex 1]}
    /\ get_balance 0 (memory c) = 70
    /\ get_balance 1 (memory c) = 30
    /\ transactions (memory c) = []
    /\ deadlocked c.
Proof.
  intros h.
  set (r := schedule _ _).
  assert (bool_decide (is_Some r) = true) as [c Hc]%bool_decide_eq_true
    by (vm_compute; reflexivity).
  assert (held <$> r = Some ({[accMutex 0; accMutex 1]} : locks)) as Hheld
    by (vm_compute; reflexivity).
  assert (memory <$> r
          = Some (mkHeap [mkAccount 1000 "A" 70 "Savings";
                          mkAccount 1001 "B" 30 "Current"] [] 1002 [])) as Hmem
    by (vm_compute; reflexivity).
  assert (forall t, r ≫= pool_step t = None) as Hstuck
    by (intros [|[|t]]; vm_compute; reflexivity).
  assert (r ≫= (fun c => finished <$> threads c !! 0%nat) = Some false) as Hwaits
    by (vm_compute; reflexivity).
  clearbody r. subst r. simpl in Hheld, Hmem, Hstuck, Hwaits.
  exists c. split; [reflexivity|]. split; [congruence|].
  injection Hmem as ->.
  split; [reflexivity|]. split; [reflexivity|]. split; [reflexivity|].
  split; [exact Hstuck|].
  destruct (threads c !! 0%nat) as [p|] eqn:Hp; [|discriminate].
  exists 0%nat, p. split; [exact Hp|]. simpl in Hwaits. congruence.
Qed.

(** ** Failures and the transaction log *)

(** The test of the code rejects an amount exactly when the specification
    names a failure kind for it. *)
Lemma rejects_spec_check_amount (amount bal : Z) :
  bool_decide (amount <= 0) || bool_decide (amount > bal)
  = match spec_check_amount amount bal with Some _ => true | None => false end.
Proof.
  unfold spec_check_amount.
  destruct (bool_decide (amount <= 0)), (bool_decide (amount > bal)); reflexivity.
Qed.

(** A failed case of the menu leaves the memory as it was, apart from at most
    one line of complaint on the console. *)
Lemma run_menu_case_failure (c : choice) (h : heap) (k : failure) :
  spec_failure c h = Some k ->
  exists out,
    run (menu_case c) h ∅
    = Returns tt (mkHeap (accounts h) (transactions h) (nextAccountNumber h)
                         (cout h ++ out)) ∅
    /\ (out = [] \/ out = ["Invalid Account!"] \/ out = ["Invalid Accounts!"])
    /\ success_line c ∉ out.
Proof.
  assert (forall h0 : heap,
             mkHeap (accounts h0) (transactions h0) (nextAccountNumber h0) (cout h0 ++ [])
             = h0) as Hsame.
  { intros [accs ts n out]. simpl. by rewrite app_nil_r. }
  assert (exists out : list string,
             Returns tt h ∅
             = Returns tt (mkHeap (accounts h) (transactions h) (nextAccountNumber h)
                                  (cout h ++ out)) ∅
             /\ (out = [] \/ out = ["Invalid Account!"] \/ out = ["Invalid Accounts!"])
             /\ success_line c ∉ out) as Hsilent.
  { exists []. rewrite Hsame. split; [done|]. split; [by left|apply not_elem_of_nil]. }
  destruct c as [name type amount|accNum amount|accNum amount|accNum toAcc amount];
    intros Hk; cbn [spec_failure] in Hk.
  - discriminate.
  - rewrite run_menu_deposit.
    destruct (first_with_number accNum (accounts h)) as [x|].
    + by destruct (bool_decide (amount <= 0)).
    + exists ["Invalid Account!"]. split; [done|]. split; [by right; left|].
      intros Hin%list_elem_of_singleton. simpl in Hin. discriminate.
  - rewrite run_menu_withdraw.
    destruct (first_with_number accNum (accounts h)) as [x|].
    + by rewrite rejects_spec_check_amount, Hk.
    + exists ["Invalid Account!"]. split; [done|]. split; [by right; left|].
      intros Hin%list_elem_of_singleton. simpl in Hin. discriminate.
  - rewrite run_menu_transfer.
    destruct (first_with_number accNum (accounts h)) as [x|].
    + destruct (first_with_number toAcc (accounts h)) as [y|]; [|done].
      by rewrite rejects_spec_check_amount, Hk.
    + exists ["Invalid Accounts!"]. split; [done|]. split; [by right; right|].
      intros Hin%list_elem_of_singleton. simpl in Hin. discriminate.
Qed.

(** C8: an operation of the menu for which the specification names a failure
    (the number is not registered, the amount is not positive, the funds do
    not suffice) returns, prints at most the line "Invalid Account!" or
    "Invalid Accounts!" and never the line of success, leaves every account,
    the log and the counter as they were, and holds no mutex afterwards; where
    the account method is called, it returns [false] to the menu. *)
Theorem failed_operation_changes_nothing (c : choice) (h : heap) (k : failure) :
  spec_failure c h = Some k ->
  (exists out,
     run (menu_case c) h ∅
     = Returns tt (mkHeap (accounts h) (transactions h) (nextAccountNumber h)
                          (cout h ++ out)) ∅
     /\ (out = [] \/ out = ["Invalid Account!"] \/ out = ["Invalid Accounts!"])
     /\ success_line c ∉ out)
  /\ match c with
     | CreateAccount _ _ _ => True
     | Deposit accNum amount =>
         forall x, first_with_number accNum (accounts h) = Some x ->
                   run (Account.deposit x amount) h ∅ = Returns false h ∅
     | Withdraw accNum amount =>
         forall x, first_with_number accNum (accounts h) = Some x ->
                   run (Account.withdraw x amount) h ∅ = Returns false h ∅
     | Transfer accNum toAcc amount =>
         forall x y, first_with_number accNum (accounts h) = Some x ->
                     first_with_number toAcc (accounts h) = Some y ->
                     run (Account.transfer x y amount) h ∅ = Returns false h ∅
     end.
Proof.
  intros Hk. split; [by eapply run_menu_case_failure|].
  destruct c as [name type amount|accNum amount|accNum amount|accNum toAcc amount];
    cbn [spec_failure] in Hk.
  - exact I.
  - intros x Hx. rewrite Hx in Hk.
    rewrite run_deposit by apply not_elem_of_empty.
    by destruct (bool_decide (amount <= 0)).
  - intros x Hx. rewrite Hx in Hk.
    rewrite run_withdraw by apply not_elem_of_empty.
    by rewrite rejects_spec_check_amount, Hk.
  - intros x y Hx Hy. rewrite Hx, Hy in Hk.
    destruct (decide (x = y)) as [<-|Hne].
    + rewrite run_transfer_self by apply not_elem_of_empty.
      by rewrite rejects_spec_check_amount, Hk.
    + rewrite run_transfer by (done || apply not_elem_of_empty).
      by rewrite rejects_spec_check_amount, Hk.
Qed.

Lemma failed_operation_changes_nothing_witness :
  let h := mkHeap [mkAccount 1000 "A" 70 "Savings"; mkAccount 1001 "B" 80 "Current"]
                  [mkTransaction 1 "Transfer" 30 1000 1001] 1002 [] in
  let c := Transfer 1000 1001 1000 in
  spec_failure c h = Some InsufficientFunds
  /\ (exists out,
        run (menu_case c) h ∅
        = Returns tt (mkHeap (accounts h) (transactions h) (nextAccountNumber h)
                             (cout h ++ out)) ∅
        /\ (out = [] \/ out = ["Invalid Account!"] \/ out = ["Invalid Accounts!"])
        /\ success_line c ∉ out)
  /\ (forall x y, first_with_number 1000 (accounts h) = Some x ->
                  first_with_number 1001 (accounts h) = Some y ->
                  run (Account.transfer x y 1000) h ∅ = Returns false h ∅).
Proof.
  intros h c. split; [reflexivity|].
  apply (failed_operation_changes_nothing c h InsufficientFunds).
  reflexivity.
Defined.

(** C7: a deposit, withdrawal or transfer of the menu that succeeds (the
    specification names no failure for it, and it is not a transfer of an
    account to itself, which does not return) prints its line of success and
    appends exactly one record to the log, with the type of the operation,
    its amount and its account number or numbers; one that fails appends
    nothing. *)
Theorem log_follows_success (c : choice) (h : heap) :
  moves_money c = true ->
  (spec_failure c h = None -> self_transfer c h = false ->
     exists h' r,
       run (menu_case c) h ∅ = Returns tt h' ∅
       /\ record_of c (Int.wrap (Z.of_nat (length (transactions h)) + 1)) = Some r
       /\ transactions h' = transactions h ++ [r]
       /\ cout h' = cout h ++ [success_line c])
  /\ (forall k, spec_failure c h = Some k ->
        exists h', run (menu_case c) h ∅ = Returns tt h' ∅
                   /\ transactions h' = transactions h).
Proof.
  intros Hmoney. split.
  - destruct c as [name type amount|accNum amount|accNum amount|accNum toAcc amount];
      intros Hok Hself; cbn [spec_failure self_transfer moves_money] in *;
      [discriminate| | |].
    + rewrite run_menu_deposit.
      destruct (first_with_number accNum (accounts h)) as [x|]; [|discriminate].
      destruct (bool_decide (amount <= 0)); [discriminate|].
      eexists _, _. split; [reflexivity|]. by split.
    + rewrite run_menu_withdraw.
      destruct (first_with_number accNum (accounts h)) as [x|]; [|discriminate].
      rewrite rejects_spec_check_amount, Hok.
      eexists _, _. split; [reflexivity|]. by split.
    + rewrite run_menu_transfer.
      destruct (first_with_number accNum (accounts h)) as [x|]; [|discriminate].
      destruct (first_with_number toAcc (accounts h)) as [y|]; [|discriminate].
      rewrite rejects_spec_check_amount, Hok.
      apply bool_decide_eq_false in Hself. simpl.
      rewrite decide_False by done.
      eexists _, _. split; [reflexivity|]. by split.
  - intros k Hk.
    destruct (run_menu_case_failure c h k Hk) as (out & Hrun & _).
    eexists. split; [exact Hrun|reflexivity].
Qed.

Lemma log_follows_success_witness :
  let h := mkHeap [mkAccount 1000 "A" 100 "Savings"; mkAccount 1001 "B" 50 "Current"]
                  [] 1002 [] in
  let c := Transfer 1000 1001 30 in
  moves_money c = true
  /\ spec_failure c h = None
  /\ self_transfer c h = false
  /\ (exists h' r,
        run (menu_case c) h ∅ = Returns tt h' ∅
        /\ record_of c (Int.wrap (Z.of_nat (length (transactions h)) + 1)) = Some r
        /\ transactions h' = transactions h ++ [r]
        /\ cout h' = cout h ++ [success_line c])
  /\ (forall k, spec_failure c h = Some k ->
        exists h', run (menu_case c) h ∅ = Returns tt h' ∅
                   /\ transactions h' = transactions h).
Proof.
  intros h c.
  split; [reflexivity|]. split; [reflexivity|]. split; [reflexivity|].
  destruct (log_follows_success c h eq_refl) as [Hok Hfail].
  split; [apply Hok; reflexivity|exact Hfail].
Defined.

(** ** Sequences of operations *)

Lemma run_seq {A : Type} (p : prog unit) (q : prog A) h L :
  run (p;; q) h L =
  match run p h L with
  | Returns _ h' L' => run q h' L'
  | Blocks m h' L' => Blocks m h' L'
  end.
Proof. apply (run_bind p (fun _ => q)). Qed.

Lemma run_userMenu_cons c rest h L :
  run (userMenu (c :: rest)) h L =
  match run (menu_case c) h L with
  | Returns _ h' L' => run (userMenu rest) h' L'
  | Blocks m h' L' => Blocks m h' L'
  end.
Proof. simpl. apply run_seq. Qed.

Lemma run_main input h L :
  run (main input) h L = run (userMenu input) (put_line "Welcome to the Bank!" h) L.
Proof. unfold main. by rewrite run_seq. Qed.

(** A case of the menu that returns has released every mutex it took. *)
Lemma run_menu_case_locks c h r h' L' :
  run (menu_case c) h ∅ = Returns r h' L' -> L' = ∅.
Proof.
  destruct c as [name type amount|accNum amount|accNum amount|accNum toAcc amount].
  - rewrite run_menu_create. by intros [= _ _ <-].
  - rewrite run_menu_deposit.
    destruct (first_with_number _ _); [destruct (bool_decide _)|]; by intros [= _ _ <-].
  - rewrite run_menu_withdraw.
    destruct (first_with_number _ _); [destruct (_ || _)|]; by intros [= _ _ <-].
  - rewrite run_menu_transfer.
    destruct (first_with_number accNum _); [|by intros [= _ _ <-]].
    destruct (first_with_number toAcc _); [|by intros [= _ _ <-]].
    destruct (_ || _); [by intros [= _ _ <-]|]. simpl.
    destruct (decide _); [discriminate|by intros [= _ _ <-]].
Qed.

Lemma run_userMenu_locks input h r h' L' :
  run (userMenu input) h ∅ = Returns r h' L' -> L' = ∅.
Proof.
  revert h. induction input as [|c rest IH]; intros h; [by intros [= _ _ <-]|].
  rewrite run_userMenu_cons.
  destruct (run (menu_case c) h ∅) as [[] h1 L1|] eqn:Hc; [|discriminate].
  apply run_menu_case_locks in Hc as ->. apply IH.
Qed.

(** ** Balances are [int]s *)

Lemma balances_in_set (lo hi : Z) (x : nat) (v : Z) (h : heap) :
  balances_in lo hi h -> lo <= v <= hi -> balances_in lo hi (set_balance x v h).
Proof.
  unfold balances_in, set_balance. simpl. intros Hall Hv.
  apply Forall_alter; [exact Hall|]. intros a _ _. exact Hv.
Qed.

Lemma balances_in_get (lo hi : Z) (number : Z) (x : nat) (h : heap) :
  balances_in lo hi h ->
  first_with_number number (accounts h) = Some x ->
  lo <= get_balance x h <= hi.
Proof.
  intros Hall (a & Ha & _)%first_with_number_Some.
  rewrite (get_balance_lookup _ _ _ Ha).
  unfold balances_in in Hall. rewrite Forall_lookup in Hall. by eapply Hall.
Qed.

Lemma balances_in_logged (lo hi : Z) line type amount fromAccount toAccount h :
  balances_in lo hi h -> balances_in lo hi (logged line type amount fromAccount toAccount h).
Proof. done. Qed.

(** Whatever the operations, as long as the console delivers [int]s every
    balance of the registry is an [int]: the hypotheses [Int.in_range] of the
    statements about single operations hold in every memory the program
    reaches. *)
Lemma menu_case_keeps_ints (c : choice) (h h' : heap) :
  balances_in Int.min Int.max h ->
  reads_int c ->
  run (menu_case c) h ∅ = Returns tt h' ∅ ->
  balances_in Int.min Int.max h'.
Proof.
  intros Hall Hint.
  destruct c as [name type amount|accNum amount|accNum amount|accNum toAcc amount].
  - rewrite run_menu_create. intros [= <-].
    unfold balances_in, put_line. simpl. apply Forall_app. split; [exact Hall|].
    by apply Forall_singleton.
  - rewrite run_menu_deposit.
    destruct (first_with_number accNum (accounts h)) as [x|]; [|by intros [= <-]].
    destruct (bool_decide (amount <= 0)); intros [= <-]; [done|].
    apply balances_in_logged, balances_in_set; [exact Hall|apply Int_wrap_in_range].
  - rewrite run_menu_withdraw.
    destruct (first_with_number accNum (accounts h)) as [x|]; [|by intros [= <-]].
    destruct (_ || _); intros [= <-]; [done|].
    apply balances_in_logged, balances_in_set; [exact Hall|apply Int_wrap_in_range].
  - rewrite run_menu_transfer.
    destruct (first_with_number accNum (accounts h)) as [x|]; [|by intros [= <-]].
    destruct (first_with_number toAcc (accounts h)) as [y|]; [|by intros [= <-]].
    destruct (_ || _); [by intros [= <-]|]. simpl.
    destruct (decide (x = y)); [discriminate|]. intros [= <-].
    apply balances_in_logged, balances_in_set; [|apply Int_wrap_in_range].
    apply balances_in_set; [exact Hall|apply Int_wrap_in_range].
Qed.

Lemma main_keeps_ints (input : list choice) (h' : heap) :
  Forall reads_int input ->
  run (main input) initial ∅ = Returns tt h' ∅ ->
  balances_in Int.min Int.max h'.
Proof.
  rewrite run_main.
  assert (balances_in Int.min Int.max (put_line "Welcome to the Bank!" initial)) as Hall
    by apply Forall_nil_2.
  revert Hall. generalize (put_line "Welcome to the Bank!" initial).
  induction input as [|c rest IH]; intros h Hall Hint.
  - by intros [= <-].
  - rewrite run_userMenu_cons. apply Forall_cons in Hint as [Hc Hrest].
    destruct (run (menu_case c) h ∅) as [[] h1 L1|] eqn:Hrun; [|discriminate].
    pose proof (run_menu_case_locks _ _ _ _ _ Hrun) as ->.
    apply IH; [|exact Hrest]. by eapply menu_case_keeps_ints.
Qed.

(** ** Balances never negative *)

Lemma menu_case_keeps_balances (c : choice) (h h' : heap) :
  balances_in 0 Int.max h ->
  admissible_choice c h = true ->
  run (menu_case c) h ∅ = Returns tt h' ∅ ->
  balances_in 0 Int.max h'.
Proof.
  intros Hall Hadm.
  destruct c as [name type amount|accNum amount|accNum amount|accNum toAcc amount];
    unfold admissible_choice, spec_failure, spec_check_amount, credit_fits in Hadm.
  - rewrite run_menu_create. intros [= <-].
    apply bool_decide_eq_true in Hadm.
    unfold balances_in, put_line. simpl. apply Forall_app. split; [exact Hall|].
    by apply Forall_singleton.
  - rewrite run_menu_deposit.
    destruct (first_with_number accNum (accounts h)) as [x|] eqn:Hx;
      [|by intros [= <-]].
    destruct (bool_decide (amount <= 0)) eqn:Hamt; [by intros [= <-]|].
    intros [= <-]. apply bool_decide_eq_true in Hadm. apply bool_decide_eq_false in Hamt.
    pose proof (balances_in_get _ _ _ _ _ Hall Hx) as Hb.
    apply balances_in_logged, balances_in_set; [exact Hall|].
    rewrite Int_add_exact; unfold Int.in_range, Int.min, Int.max in *; lia.
  - rewrite run_menu_withdraw.
    destruct (first_with_number accNum (accounts h)) as [x|] eqn:Hx;
      [|by intros [= <-]].
    pose proof (balances_in_get _ _ _ _ _ Hall Hx) as Hb.
    destruct (bool_decide (amount <= 0)) eqn:Hamt; [by intros [= <-]|].
    destruct (bool_decide (amount > get_balance x h)) eqn:Hgt; [by intros [= <-]|].
    intros [= <-]. apply bool_decide_eq_false in Hamt, Hgt.
    apply balances_in_logged, balances_in_set; [exact Hall|].
    rewrite Int_sub_exact; unfold Int.in_range, Int.min, Int.max in *; lia.
  - rewrite run_menu_transfer.
    destruct (first_with_number accNum (accounts h)) as [x|] eqn:Hx;
      [|by intros [= <-]].
    destruct (first_with_number toAcc (accounts h)) as [y|] eqn:Hy;
      [|by intros [= <-]].
    pose proof (balances_in_get _ _ _ _ _ Hall Hx) as Hbx.
    pose proof (balances_in_get _ _ _ _ _ Hall Hy) as Hby.
    destruct (bool_decide (amount <= 0)) eqn:Hamt; [by intros [= <-]|].
    destruct (bool_decide (amount > get_balance x h)) eqn:Hgt; [by intros [= <-]|].
    simpl. destruct (decide (x = y)) as [|Hne]; [discriminate|].
    intros [= <-]. apply bool_decide_eq_true in Hadm.
    apply bool_decide_eq_false in Hamt, Hgt.
    apply balances_in_logged, balances_in_set.
    + apply balances_in_set; [exact Hall|].
      rewrite Int_sub_exact; unfold Int.in_range, Int.min, Int.max in *; lia.
    + rewrite get_set_balance_ne by done.
      rewrite Int_add_exact; unfold Int.in_range, Int.min, Int.max in *; lia.
Qed.

Lemma userMenu_keeps_balances (input : list choice) (h h' : heap) :
  balances_in 0 Int.max h ->
  admissible input h = true ->
  run (userMenu input) h ∅ = Returns tt h' ∅ ->
  balances_in 0 Int.max h'.
Proof.
  revert h. induction input as [|c rest IH]; intros h Hall Hadm.
  - by intros [= <-].
  - rewrite run_userMenu_cons. simpl in Hadm.
    apply andb_true_iff in Hadm as [Hc Hrest].
    destruct (run (menu_case c) h ∅) as [[] h1 L1|] eqn:Hrun; [|discriminate].
    pose proof (run_menu_case_locks _ _ _ _ _ Hrun) as ->.
    apply IH; [|exact Hrest]. by eapply menu_case_keeps_balances.
Qed.

Lemma admissible_prefix (pre suf : list choice) (h : heap) :
  admissible (pre ++ suf) h = true -> admissible pre h = true.
Proof.
  revert h. induction pre as [|c pre IH]; intros h; [reflexivity|].
  simpl. intros [Hc Hrest]%andb_true_iff. rewrite Hc. simpl.
  destruct (run (menu_case c) h ∅); [by apply IH|reflexivity].
Qed.

(** C3, as the code has it: when every account is opened with a balance
    between 0 and 2147483647 and no deposit or transfer raises a balance
    above 2147483647, then after every operation of the sequence that has
    returned, no account has a negative balance. *)
Theorem balance_never_negative (input pre : list choice) (h' : heap) :
  admissible input (put_line "Welcome to the Bank!" initial) = true ->
  pre `prefix_of` input ->
  run (main pre) initial ∅ = Returns tt h' ∅ ->
  Forall (fun a => 0 <= balance a) (accounts h').
Proof.
  intros Hadm [suf ->] Hrun. rewrite run_main in Hrun.
  apply admissible_prefix in Hadm.
  assert (balances_in 0 Int.max h') as Hall.
  { eapply userMenu_keeps_balances; [|exact Hadm|exact Hrun]. by apply Forall_nil. }
  eapply Forall_impl; [exact Hall|]. simpl. intros a Ha. lia.
Qed.

Lemma balance_never_negative_witness :
  let input := [CreateAccount "A" "Savings" 100; CreateAccount "B" "Current" 50;
                Transfer 1000 1001 30; Transfer 1000 1001 1000; Withdraw 1001 80] in
  let pre := [CreateAccount "A" "Savings" 100; CreateAccount "B" "Current" 50;
              Transfer 1000 1001 30] in
  let h' := mkHeap [mkAccount 1000 "A" 70 "Savings"; mkAccount 1001 "B" 80 "Current"]
                   [mkTransaction 1 "Transfer" 30 1000 1001]
                   1002
                   ["Welcome to the Bank!";
                    "Account Created! Your Account Number is: 1000";
                    "Account Created! Your Account Number is: 1001";
                    "Transfer Successful!"] in
  admissible input (put_line "Welcome to the Bank!" initial) = true
  /\ pre `prefix_of` input
  /\ run (main pre) initial ∅ = Returns tt h' ∅
  /\ Forall (fun a => 0 <= balance a) (accounts h').
Proof.
  intros input pre h'.
  assert (admissible input (put_line "Welcome to the Bank!" initial) = true) as Hadm
    by (vm_compute; reflexivity).
  assert (pre `prefix_of` input) as Hpre
    by (exists [Transfer 1000 1001 1000; Withdraw 1001 80]; reflexivity).
  assert (run (main pre) initial ∅ = Returns tt h' ∅) as Hrun
    by (vm_compute; reflexivity).
  split; [exact Hadm|]. split; [exact Hpre|]. split; [exact Hrun|].
  exact (balance_never_negative input pre h' Hadm Hpre Hrun).
Defined.

(** C3 fails as stated: an account opened with the initial balance -5 has a
    negative balance as soon as [createAccount] has returned. *)
Lemma negative_initial_balance :
  exists h',
    run (main [CreateAccount "A" "Savings" (-5)]) initial ∅ = Returns tt h' ∅
    /\ get_balance 0 h' = -5
    /\ ~ Forall (fun a => 0 <= balance a) (accounts h').
Proof.
  eexists. split; [vm_compute; reflexivity|]. split; [reflexivity|].
  intros Hall. apply Forall_cons in Hall as [Hneg _]. simpl in Hneg. lia.
Qed.

(** ** Account numbers *)

Lemma Int_wrap_succ (z : Z) : Int.add (Int.wrap z) 1 = Int.wrap (z + 1).
Proof.
  unfold Int.add, Int.wrap.
  replace ((z + 2147483648) mod 4294967296 - 2147483648 + 1 + 2147483648)
    with ((z + 2147483648) mod 4294967296 + 1) by lia.
  rewrite Z.add_mod_idemp_l by lia.
  by replace (z + 2147483648 + 1) with (z + 1 + 2147483648) by lia.
Qed.

Lemma number_at_succ (k : nat) : Int.add (number_at k) 1 = number_at (S k).
Proof.
  unfold number_at. rewrite Int_wrap_succ. f_equal. lia.
Qed.

Lemma number_at_small (k : nat) :
  Z.of_nat k < 2147482648 -> number_at k = 1000 + Z.of_nat k.
Proof.
  intros Hk. apply Int_wrap_id. unfold Int.in_range, Int.min, Int.max. lia.
Qed.

Lemma numbered_set_balance x v h : numbered h -> numbered (set_balance x v h).
Proof.
  intros [Hnum Hnext]. unfold numbered, set_balance. simpl. split.
  - intros k a. destruct (decide (x = k)) as [<-|Hne].
    + rewrite list_lookup_alter_eq.
      destruct (accounts h !! x) as [a0|] eqn:Ha0; [|discriminate].
      intros [= <-]. simpl. by apply Hnum.
    + rewrite list_lookup_alter_ne by done. apply Hnum.
  - by rewrite length_alter.
Qed.

Lemma numbered_logged line type amount fromAccount toAccount h :
  numbered h -> numbered (logged line type amount fromAccount toAccount h).
Proof. by intros [Hnum Hnext]. Qed.

Lemma menu_case_keeps_numbered (c : choice) (h h' : heap) :
  numbered h -> run (menu_case c) h ∅ = Returns tt h' ∅ -> numbered h'.
Proof.
  intros Hn.
  destruct c as [name type amount|accNum amount|accNum amount|accNum toAcc amount].
  - rewrite run_menu_create. intros [= <-]. destruct Hn as [Hnum Hnext].
    unfold numbered, put_line. simpl. split.
    + intros k a [[_ Hk]|[-> <-]]%lookup_snoc_Some; [by apply Hnum|]. by simpl.
    + rewrite length_app, Hnext, number_at_succ. simpl. f_equal. lia.
  - rewrite run_menu_deposit.
    destruct (first_with_number accNum (accounts h)) as [x|]; [|by intros [= <-]].
    destruct (bool_decide (amount <= 0)); intros [= <-]; [done|].
    by apply numbered_logged, numbered_set_balance.
  - rewrite run_menu_withdraw.
    destruct (first_with_number accNum (accounts h)) as [x|]; [|by intros [= <-]].
    destruct (_ || _); intros [= <-]; [done|].
    by apply numbered_logged, numbered_set_balance.
  - rewrite run_menu_transfer.
    destruct (first_with_number accNum (accounts h)) as [x|]; [|by intros [= <-]].
    destruct (first_with_number toAcc (accounts h)) as [y|]; [|by intros [= <-]].
    destruct (_ || _); [by intros [= <-]|]. simpl.
    destruct (decide (x = y)); [discriminate|]. intros [= <-].
    by apply numbered_logged, numbered_set_balance, numbered_set_balance.
Qed.

Lemma userMenu_keeps_numbered (input : list choice) (h h' : heap) :
  numbered h -> run (userMenu input) h ∅ = Returns tt h' ∅ -> numbered h'.
Proof.
  revert h. induction input as [|c rest IH]; intros h Hn; [by intros [= <-]|].
  rewrite run_userMenu_cons.
  destruct (run (menu_case c) h ∅) as [[] h1 L1|] eqn:Hrun; [|discriminate].
  pose proof (run_menu_case_locks _ _ _ _ _ Hrun) as ->.
  apply IH. by eapply menu_case_keeps_numbered.
Qed.

Lemma main_numbered (input : list choice) (h : heap) :
  run (main input) initial ∅ = Returns tt h ∅ -> numbered h.
Proof.
  rewrite run_main. apply userMenu_keeps_numbered. by split.
Qed.

(** C6, as the code has it: [createAccount] gives the new account the
    current value of the counter, which starts at 1000, adds one to the
    counter and returns the number it gave.  As long as the registry holds
    at most 2147482648 accounts (the numbers handed out have not passed
    2147483647), the numbers of the registry are 1000, 1001, ... in the order
    of creation: no two accounts share a number, the numbers increase with
    the position, and the number the next creation returns is not in the
    registry. *)
Theorem account_numbers_unique (input : list choice) (h : heap) :
  run (main input) initial ∅ = Returns tt h ∅ ->
  Z.of_nat (length (accounts h)) <= 2147482648 ->
  accountNumber <$> accounts h
  = (fun k => 1000 + Z.of_nat k) <$> seq 0 (length (accounts h))
  /\ NoDup (accountNumber <$> accounts h)
  /\ (forall i j a b, (i < j)%nat ->
        accounts h !! i = Some a -> accounts h !! j = Some b ->
        accountNumber a < accountNumber b)
  /\ (forall name type initialBalance,
        exists h',
          run (Bank.createAccount name type initialBalance) h ∅
          = Returns (nextAccountNumber h) h' ∅
          /\ accounts h'
             = accounts h ++ [mkAccount (nextAccountNumber h) name initialBalance type]
          /\ nextAccountNumber h' = Int.add (nextAccountNumber h) 1
          /\ (Z.of_nat (length (accounts h)) < 2147482648 ->
              nextAccountNumber h = 1000 + Z.of_nat (length (accounts h))
              /\ nextAccountNumber h ∉ (accountNumber <$> accounts h))).
Proof.
  intros Hrun Hlen. destruct (main_numbered _ _ Hrun) as [Hnum Hnext].
  assert (forall k a, accounts h !! k = Some a -> accountNumber a = 1000 + Z.of_nat k)
    as Hexact.
  { intros k a Ha. rewrite (Hnum k a Ha). apply number_at_small.
    apply lookup_lt_Some in Ha. lia. }
  assert (accountNumber <$> accounts h
          = (fun k => 1000 + Z.of_nat k) <$> seq 0 (length (accounts h))) as Hlist.
  { apply list_eq. intros k. rewrite !list_lookup_fmap.
    destruct (accounts h !! k) as [a|] eqn:Ha; simpl.
    - rewrite lookup_seq_lt by (by eapply lookup_lt_Some). simpl.
      f_equal. by apply Hexact.
    - apply lookup_ge_None in Ha.
      by rewrite (proj2 (lookup_ge_None (seq 0 (length (accounts h))) k))
        by (rewrite length_seq; lia). }
  split; [exact Hlist|]. split; [|split].
  - rewrite Hlist. apply NoDup_fmap_2; [|apply NoDup_seq].
    intros k1 k2 Heq. lia.
  - intros i j a b Hij Ha Hb.
    rewrite (Hexact i a Ha), (Hexact j b Hb). lia.
  - intros name type initialBalance. eexists.
    split; [by apply run_createAccount, not_elem_of_empty|].
    simpl. split; [reflexivity|]. split; [reflexivity|].
    intros Hroom. rewrite Hnext, number_at_small by exact Hroom.
    split; [reflexivity|].
    intros (a & Hna & Hin)%list_elem_of_fmap.
    apply list_elem_of_lookup in Hin as [k Hk].
    rewrite (Hexact k a Hk) in Hna. apply lookup_lt_Some in Hk. lia.
Qed.

Lemma account_numbers_unique_witness :
  let input := [CreateAccount "A" "Savings" 100; Deposit 1000 5;
                CreateAccount "B" "Current" 50] in
  let h := mkHeap [mkAccount 1000 "A" 105 "Savings"; mkAccount 1001 "B" 50 "Current"]
                  [mkTransaction 1 "Deposit" 5 1000 (-1)]
                  1002
                  ["Welcome to the Bank!";
                   "Account Created! Your Account Number is: 1000";
                   "Deposited Successfully!";
                   "Account Created! Your Account Number is: 1001"] in
  run (main input) initial ∅ = Returns tt h ∅
  /\ Z.of_nat (length (accounts h)) <= 2147482648
  /\ accountNumber <$> accounts h
     = (fun k => 1000 + Z.of_nat k) <$> seq 0 (length (accounts h))
  /\ NoDup (accountNumber <$> accounts h)
  /\ (forall i j a b, (i < j)%nat ->
        accounts h !! i = Some a -> accounts h !! j = Some b ->
        accountNumber a < accountNumber b)
  /\ (forall name type initialBalance,
        exists h',
          run (Bank.createAccount name type initialBalance) h ∅
          = Returns (nextAccountNumber h) h' ∅
          /\ accounts h'
             = accounts h ++ [mkAccount (nextAccountNumber h) name initialBalance type]
          /\ nextAccountNumber h' = Int.add (nextAccountNumber h) 1
          /\ (Z.of_nat (length (accounts h)) < 2147482648 ->
              nextAccountNumber h = 1000 + Z.of_nat (length (accounts h))
              /\ nextAccountNumber h ∉ (accountNumber <$> accounts h))).
Proof.
  intros input h.
  assert (run (main input) initial ∅ = Returns tt h ∅) as Hrun
    by (vm_compute; reflexivity).
  assert (Z.of_nat (length (accounts h)) <= 2147482648) as Hlen by (simpl; lia).
  split; [exact Hrun|]. split; [exact Hlen|].
  exact (account_numbers_unique input h Hrun Hlen).
Defined.

(** Any number of creations in a row returns, and each adds one account. *)
Lemma run_creations (n : nat) (name type : string) (amount : Z) (h : heap) :
  exists h',
    run (userMenu (replicate n (CreateAccount name type amount))) h ∅ = Returns tt h' ∅
    /\ length (accounts h') = (length (accounts h) + n)%nat.
Proof.
  revert h. induction n as [|n IH]; intros h.
  - exists h. split; [reflexivity|lia].
  - rewrite replicate_S, run_userMenu_cons, run_menu_create.
    match goal with |- context [run _ ?h1 ∅] => destruct (IH h1) as (h' & Hrun & Hlen) end.
    exists h'. split; [exact Hrun|].
    rewrite Hlen. unfold put_line. simpl. rewrite length_app. simpl. lia.
Qed.

(** C6 fails as stated: after 2147482649 creations in a row the account
    created last carries the number -2147483648, below the number 2147483647
    of the account created just before it. *)
Lemma account_numbers_wrap :
  exists h a b,
    run (main (replicate (Z.to_nat 2147482649) (CreateAccount "A" "Savings" 0)))
        initial ∅ = Returns tt h ∅
    /\ accounts h !! Z.to_nat 2147482647 = Some a
    /\ accounts h !! Z.to_nat 2147482648 = Some b
    /\ accountNumber a = 2147483647
    /\ accountNumber b = -2147483648.
Proof.
  destruct (run_creations (Z.to_nat 2147482649) "A" "Savings" 0
              (put_line "Welcome to the Bank!" initial)) as (h & Hrun & Hlen).
  rewrite <- run_main in Hrun.
  destruct (main_numbered _ _ Hrun) as [Hnum _].
  change (length (accounts (put_line "Welcome to the Bank!" initial))) with 0%nat in Hlen.
  destruct (lookup_lt_is_Some_2 (accounts h) (Z.to_nat 2147482647)) as [a Ha]; [lia|].
  destruct (lookup_lt_is_Some_2 (accounts h) (Z.to_nat 2147482648)) as [b Hb]; [lia|].
  exists h, a, b. split; [exact Hrun|]. split; [exact Ha|]. split; [exact Hb|].
  rewrite (Hnum _ _ Ha), (Hnum _ _ Hb). unfold number_at.
  rewrite !Z2Nat.id by lia. split; reflexivity.
Qed.

(** * Further properties of the code *)

(** ** Looking accounts up *)

(** X1: [findAccount] takes no mutex and changes nothing; what it returns is
    the first account of the registry that carries the number, and [nullptr]
    exactly when no account carries it. *)
Theorem findAccount_first_match (number : Z) (h : heap) (L : locks) :
  exists r,
    run (Bank.findAccount number) h L = Returns r h L
    /\ match r with
       | Some x =>
           exists a, accounts h !! x = Some a
                     /\ accountNumber a = number
                     /\ forall j b, (j < x)%nat -> accounts h !! j = Some b ->
                                    accountNumber b <> number
       | None => forall a, a ∈ accounts h -> accountNumber a <> number
       end.
Proof.
  exists (first_with_number number (accounts h)). split; [reflexivity|].
  unfold first_with_number.
  destruct (list_find _ (accounts h)) as [[x a]|] eqn:Hfind; simpl.
  - apply list_find_Some in Hfind as (Ha & Hn & Hfirst).
    exists a. split; [exact Ha|]. split; [exact Hn|].
    intros j b Hj Hb. by apply (Hfirst j b).
  - rewrite list_find_None, Forall_forall in Hfind. exact Hfind.
Qed.

Lemma first_with_number_app_l number accs opened x :
  first_with_number number accs = Some x ->
  first_with_number number (accs ++ opened) = Some x.
Proof.
  unfold first_with_number. intros Hf.
  destruct (list_find _ accs) as [[i a]|] eqn:Hfind; [|discriminate].
  simpl in Hf. injection Hf as ->.
  apply list_find_Some in Hfind as (Ha & Hn & Hfirst).
  assert (list_find (fun acc => accountNumber acc = number) (accs ++ opened)
          = Some (x, a)) as ->; [|reflexivity].
  apply list_find_Some. split; [by apply lookup_app_l_Some|]. split; [exact Hn|].
  intros j b Hb Hj. apply (Hfirst j b); [|exact Hj].
  rewrite lookup_app_l in Hb; [exact Hb|]. apply lookup_lt_Some in Ha. lia.
Qed.

Lemma first_with_number_fresh number accs a :
  (forall b, b ∈ accs -> accountNumber b <> number) ->
  accountNumber a = number ->
  first_with_number number (accs ++ [a]) = Some (length accs).
Proof.
  intros Hfresh Hn. unfold first_with_number.
  assert (list_find (fun acc => accountNumber acc = number) (accs ++ [a])
          = Some (length accs, a)) as ->; [|reflexivity].
  apply list_find_Some. split; [|split; [exact Hn|]].
  - by rewrite lookup_app_r, Nat.sub_diag by lia.
  - intros j b Hb Hj. rewrite lookup_app_l in Hb by exact Hj.
    apply Hfresh. by eapply list_elem_of_lookup_2.
Qed.

Lemma first_with_number_same_identity number accs front :
  Forall2 same_identity accs front ->
  first_with_number number front = first_with_number number accs.
Proof.
  unfold first_with_number. induction 1 as [|a a' accs front Hid _ IH]; [reflexivity|].
  destruct Hid as (Hn & _ & _). cbn [list_find]. rewrite Hn.
  destruct (decide (accountNumber a = number)); [reflexivity|].
  destruct (list_find _ front) as [[j b]|], (list_find _ accs) as [[j' b']|];
    simpl in *; congruence.
Qed.

Lemma numbered_fresh (h : heap) :
  numbered h ->
  Z.of_nat (length (accounts h)) < 2147482648 ->
  forall b, b ∈ accounts h -> accountNumber b <> nextAccountNumber h.
Proof.
  intros [Hnum Hnext] Hroom b [k Hk]%list_elem_of_lookup.
  rewrite Hnext, (Hnum k b Hk).
  pose proof (lookup_lt_Some _ _ _ Hk) as Hlt.
  rewrite !number_at_small by lia. lia.
Qed.

(** X2: in every memory the program reaches with fewer than 2147482648
    accounts, the number that [createAccount] returns finds the account just
    created, with the name, type and balance that were given. *)
Theorem created_account_is_found (input : list choice) (h : heap)
    (name type : string) (initialBalance : Z) :
  run (main input) initial ∅ = Returns tt h ∅ ->
  Z.of_nat (length (accounts h)) < 2147482648 ->
  exists n h',
    run (Bank.createAccount name type initialBalance) h ∅ = Returns n h' ∅
    /\ run (Bank.findAccount n) h' ∅ = Returns (Some (length (accounts h))) h' ∅
    /\ accounts h' !! length (accounts h) = Some (mkAccount n name initialBalance type).
Proof.
  intros Hrun Hroom. pose proof (main_numbered _ _ Hrun) as Hnum.
  eexists _, _. split; [by apply run_createAccount, not_elem_of_empty|].
  split.
  - rewrite run_findAccount. simpl. f_equal.
    apply first_with_number_fresh; [|reflexivity]. by apply numbered_fresh.
  - simpl. by rewrite lookup_app_r, Nat.sub_diag by lia.
Qed.

Lemma created_account_is_found_witness :
  let input := [CreateAccount "A" "Savings" 100] in
  let h := mkHeap [mkAccount 1000 "A" 100 "Savings"] [] 1001
                  ["Welcome to the Bank!";
                   "Account Created! Your Account Number is: 1000"] in
  run (main input) initial ∅ = Returns tt h ∅
  /\ Z.of_nat (length (accounts h)) < 2147482648
  /\ exists n h',
       run (Bank.createAccount "B" "Current" 50) h ∅ = Returns n h' ∅
       /\ run (Bank.findAccount n) h' ∅ = Returns (Some (length (accounts h))) h' ∅
       /\ accounts h' !! length (accounts h) = Some (mkAccount n "B" 50 "Current").
Proof.
  intros input h.
  assert (run (main input) initial ∅ = Returns tt h ∅) as Hrun
    by (vm_compute; reflexivity).
  assert (Z.of_nat (length (accounts h)) < 2147482648) as Hroom by (simpl; lia).
  split; [exact Hrun|]. split; [exact Hroom|].
  exact (created_account_is_found input h "B" "Current" 50 Hrun Hroom).
Defined.

(** ** The registry only grows *)

Lemma same_identity_with_balance v a : same_identity a (with_balance v a).
Proof. by split. Qed.

Lemma grown_from_refl accs : grown_from accs accs.
Proof.
  exists accs, []. split; [by rewrite app_nil_r|].
  apply Forall2_same_length_lookup. split; [reflexivity|].
  intros i a a' Ha Ha'. rewrite Ha in Ha'. injection Ha' as <-. by split.
Qed.

Lemma grown_from_trans accs accs' accs'' :
  grown_from accs accs' -> grown_from accs' accs'' -> grown_from accs accs''.
Proof.
  intros (front & opened & -> & Hfront) (front' & opened' & -> & Hfront').
  apply Forall2_app_inv_l in Hfront' as (f1 & f2 & Hf1 & Hf2 & ->).
  exists f1, (f2 ++ opened'). split; [by rewrite app_assoc|].
  apply Forall2_same_length_lookup. split.
  - by rewrite (Forall2_length _ _ _ Hfront), (Forall2_length _ _ _ Hf1).
  - intros i a a'' Ha Ha''.
    destruct (Forall2_lookup_l _ _ _ _ _ Hfront Ha) as (a' & Ha' & (?&?&?)).
    destruct (Forall2_lookup_l _ _ _ _ _ Hf1 Ha') as (b & Hb & (?&?&?)).
    rewrite Ha'' in Hb. injection Hb as <-. split; [|split]; congruence.
Qed.

Lemma grown_from_set_balance x v h :
  grown_from (accounts h) (accounts (set_balance x v h)).
Proof.
  exists (accounts (set_balance x v h)), []. split; [by rewrite app_nil_r|].
  unfold set_balance. simpl.
  apply Forall2_same_length_lookup. split; [by rewrite length_alter|].
  intros i a a' Ha. destruct (decide (x = i)) as [<-|Hne].
  - rewrite list_lookup_alter_eq, Ha. intros [= <-]. apply same_identity_with_balance.
  - rewrite list_lookup_alter_ne, Ha by done. intros [= <-]. by split.
Qed.

Lemma menu_case_grows (c : choice) (h h' : heap) :
  run (menu_case c) h ∅ = Returns tt h' ∅ -> grown_from (accounts h) (accounts h').
Proof.
  destruct c as [name type amount|accNum amount|accNum amount|accNum toAcc amount].
  - rewrite run_menu_create. intros [= <-]. simpl.
    eexists (accounts h), [_]. split; [reflexivity|].
    destruct (grown_from_refl (accounts h)) as (f & o & Heq & Hf).
    apply Forall2_same_length_lookup. split; [reflexivity|].
    intros i a a' Ha Ha'. rewrite Ha in Ha'. injection Ha' as <-. by split.
  - rewrite run_menu_deposit.
    destruct (first_with_number accNum (accounts h)) as [x|];
      [|intros [= <-]; apply grown_from_refl].
    destruct (bool_decide (amount <= 0)); intros [= <-]; [apply grown_from_refl|].
    apply (grown_from_set_balance x _ h).
  - rewrite run_menu_withdraw.
    destruct (first_with_number accNum (accounts h)) as [x|];
      [|intros [= <-]; apply grown_from_refl].
    destruct (_ || _); intros [= <-]; [apply grown_from_refl|].
    apply (grown_from_set_balance x _ h).
  - rewrite run_menu_transfer.
    destruct (first_with_number accNum (accounts h)) as [x|];
      [|intros [= <-]; apply grown_from_refl].
    destruct (first_with_number toAcc (accounts h)) as [y|];
      [|intros [= <-]; apply grown_from_refl].
    destruct (_ || _); [intros [= <-]; apply grown_from_refl|]. simpl.
    destruct (decide (x = y)); [discriminate|]. intros [= <-].
    eapply grown_from_trans; [eapply (grown_from_set_balance x)|].
    apply grown_from_set_balance.
Qed.

Lemma userMenu_grows (input : list choice) (h h' : heap) :
  run (userMenu input) h ∅ = Returns tt h' ∅ -> grown_from (accounts h) (accounts h').
Proof.
  revert h. induction input as [|c rest IH]; intros h.
  - intros [= <-]. apply grown_from_refl.
  - rewrite run_userMenu_cons.
    destruct (run (menu_case c) h ∅) as [[] h1 L1|] eqn:Hrun; [|discriminate].
    pose proof (run_menu_case_locks _ _ _ _ _ Hrun) as ->.
    intros Hrest. eapply grown_from_trans; [by eapply menu_case_grows|by apply IH].
Qed.

Lemma grown_from_lookup accs accs' x a :
  grown_from accs accs' -> accs !! x = Some a ->
  exists a', accs' !! x = Some a' /\ same_identity a a'.
Proof.
  intros (front & opened & -> & Hfront) Ha.
  destruct (Forall2_lookup_l _ _ _ _ _ Hfront Ha) as (a' & Ha' & Hid).
  exists a'. split; [by apply lookup_app_l_Some|exact Hid].
Qed.

Lemma grown_from_first_with_number accs accs' number x :
  grown_from accs accs' ->
  first_with_number number accs = Some x ->
  first_with_number number accs' = Some x.
Proof.
  intros (front & opened & -> & Hfront) Hx.
  apply first_with_number_app_l.
  by rewrite (first_with_number_same_identity _ _ _ Hfront).
Qed.

(** X3: whatever operations the menu carries out, no account is ever removed,
    moved or renamed: every account of the registry is still at its place
    afterwards with its number, name and type, and every number that
    [findAccount] resolved still resolves to the same account. *)
Theorem registry_only_grows (input : list choice) (h h' : heap) :
  run (userMenu input) h ∅ = Returns tt h' ∅ ->
  (forall x a, accounts h !! x = Some a ->
     exists a', accounts h' !! x = Some a' /\ same_identity a a')
  /\ (forall number x,
        first_with_number number (accounts h) = Some x ->
        first_with_number number (accounts h') = Some x).
Proof.
  intros Hgrow%userMenu_grows. split.
  - intros x a. by apply grown_from_lookup.
  - intros number x. by apply grown_from_first_with_number.
Qed.

Lemma registry_only_grows_witness :
  let input := [Transfer 1000 1001 30; CreateAccount "C" "Savings" 0; Withdraw 1001 80] in
  let h := mkHeap [mkAccount 1000 "A" 100 "Savings"; mkAccount 1001 "B" 50 "Current"]
                  [] 1002 [] in
  let h' := mkHeap [mkAccount 1000 "A" 70 "Savings"; mkAccount 1001 "B" 0 "Current";
                    mkAccount 1002 "C" 0 "Savings"]
                   [mkTransaction 1 "Transfer" 30 1000 1001;
                    mkTransaction 2 "Withdraw" 80 1001 (-1)]
                   1003
                   ["Transfer Successful!";
                    "Account Created! Your Account Number is: 1002";
                    "Withdrawal Successful!"] in
  run (userMenu input) h ∅ = Returns tt h' ∅
  /\ (forall x a, accounts h !! x = Some a ->
        exists a', accounts h' !! x = Some a' /\ same_identity a a')
  /\ (forall number x,
        first_with_number number (accounts h) = Some x ->
        first_with_number number (accounts h') = Some x).
Proof.
  intros input h h'.
  assert (run (userMenu input) h ∅ = Returns tt h' ∅) as Hrun
    by (vm_compute; reflexivity).
  split; [exact Hrun|]. exact (registry_only_grows input h h' Hrun).
Defined.

(** ** The transaction log *)

(** What a case of the menu that returns does to the log: nothing, or one
    record at the end, whose id is the new length of the log and whose
    accounts the case has just found. *)
Lemma menu_case_log (c : choice) (h h' : heap) :
  run (menu_case c) h ∅ = Returns tt h' ∅ ->
  transactions h' = transactions h
  \/ exists t,
       transactions h' = transactions h ++ [t]
       /\ transactionId t = Int.wrap (Z.of_nat (length (transactions h)) + 1)
       /\ sound_record h' t.
Proof.
  assert (forall number x z v h0,
             first_with_number number (accounts h0) = Some x ->
             forall line type amount fromAccount toAccount,
               registered number
                 (logged line type amount fromAccount toAccount (set_balance z v h0)))
    as Hreg.
  { intros number x z v h0 Hx line type amount fromAccount toAccount.
    exists x. simpl.
    by apply (grown_from_first_with_number _ _ _ _ (grown_from_set_balance z v h0)). }
  destruct c as [name type amount|accNum amount|accNum amount|accNum toAcc amount].
  - rewrite run_menu_create. intros [= <-]. by left.
  - rewrite run_menu_deposit.
    destruct (first_with_number accNum (accounts h)) as [x|] eqn:Hx;
      [|intros [= <-]; by left].
    destruct (bool_decide (amount <= 0)) eqn:Hamt; intros [= <-]; [by left|].
    apply bool_decide_eq_false in Hamt.
    right. eexists. split; [reflexivity|]. split; [reflexivity|].
    split; [simpl; lia|]. split; [by apply (Hreg accNum x)|]. by left.
  - rewrite run_menu_withdraw.
    destruct (first_with_number accNum (accounts h)) as [x|] eqn:Hx;
      [|intros [= <-]; by left].
    destruct (bool_decide (amount <= 0)) eqn:Hamt; [intros [= <-]; by left|].
    destruct (bool_decide (amount > get_balance x h)); intros [= <-]; [by left|].
    apply bool_decide_eq_false in Hamt.
    right. eexists. split; [reflexivity|]. split; [reflexivity|].
    split; [simpl; lia|]. split; [by apply (Hreg accNum x)|]. by right; left.
  - rewrite run_menu_transfer.
    destruct (first_with_number accNum (accounts h)) as [x|] eqn:Hx;
      [|intros [= <-]; by left].
    destruct (first_with_number toAcc (accounts h)) as [y|] eqn:Hy;
      [|intros [= <-]; by left].
    destruct (bool_decide (amount <= 0)) eqn:Hamt; [intros [= <-]; by left|].
    destruct (bool_decide (amount > get_balance x h)); [intros [= <-]; by left|].
    simpl. destruct (decide (x = y)); [discriminate|]. intros [= <-].
    apply bool_decide_eq_false in Hamt.
    pose proof (grown_from_set_balance x
                  (Int.sub (get_balance x h) amount) h) as Hgrow.
    right. eexists. split; [reflexivity|]. split; [reflexivity|].
    split; [simpl; lia|]. split.
    + apply (Hreg accNum x).
      exact (grown_from_first_with_number _ _ _ _ Hgrow Hx).
    + right; right. split; [reflexivity|].
      apply (Hreg toAcc y).
      exact (grown_from_first_with_number _ _ _ _ Hgrow Hy).
Qed.

(** X4: the log is only ever appended to: after any operations of the menu
    the earlier log is a prefix of the later one, and each operation has
    added at most one record. *)
Theorem log_is_append_only (input : list choice) (h h' : heap) :
  run (userMenu input) h ∅ = Returns tt h' ∅ ->
  transactions h `prefix_of` transactions h'
  /\ (length (transactions h') <= length (transactions h) + length input)%nat.
Proof.
  revert h. induction input as [|c rest IH]; intros h.
  - intros [= <-]. split; [done|simpl; lia].
  - rewrite run_userMenu_cons.
    destruct (run (menu_case c) h ∅) as [[] h1 L1|] eqn:Hrun; [|discriminate].
    pose proof (run_menu_case_locks _ _ _ _ _ Hrun) as ->.
    intros [Hpre Hlen]%IH.
    destruct (menu_case_log _ _ _ Hrun) as [Heq|(t & Heq & _)]; rewrite Heq in *.
    + split; [exact Hpre|simpl; lia].
    + split; [by eapply prefix_app_l|].
      rewrite length_app in Hlen. simpl in *. lia.
Qed.

Lemma log_is_append_only_witness :
  let input := [Deposit 1000 5; Deposit 1000 (-5); Withdraw 1001 10] in
  let h := mkHeap [mkAccount 1000 "A" 100 "Savings"; mkAccount 1001 "B" 50 "Current"]
                  [mkTransaction 1 "Transfer" 30 1000 1001] 1002 [] in
  let h' := mkHeap [mkAccount 1000 "A" 105 "Savings"; mkAccount 1001 "B" 40 "Current"]
                   [mkTransaction 1 "Transfer" 30 1000 1001;
                    mkTransaction 2 "Deposit" 5 1000 (-1);
                    mkTransaction 3 "Withdraw" 10 1001 (-1)]
                   1002
                   ["Deposited Successfully!"; "Withdrawal Successful!"] in
  run (userMenu input) h ∅ = Returns tt h' ∅
  /\ transactions h `prefix_of` transactions h'
  /\ (length (transactions h') <= length (transactions h) + length input)%nat.
Proof.
  intros input h h'.
  assert (run (userMenu input) h ∅ = Returns tt h' ∅) as Hrun
    by (vm_compute; reflexivity).
  split; [exact Hrun|]. exact (log_is_append_only input h h' Hrun).
Defined.

Lemma userMenu_log_ids (input : list choice) (h h' : heap) :
  (forall k t, transactions h !! k = Some t ->
               transactionId t = Int.wrap (Z.of_nat k + 1)) ->
  run (userMenu input) h ∅ = Returns tt h' ∅ ->
  forall k t, transactions h' !! k = Some t ->
              transactionId t = Int.wrap (Z.of_nat k + 1).
Proof.
  revert h. induction input as [|c rest IH]; intros h Hids.
  - by intros [= <-].
  - rewrite run_userMenu_cons.
    destruct (run (menu_case c) h ∅) as [[] h1 L1|] eqn:Hrun; [|discriminate].
    pose proof (run_menu_case_locks _ _ _ _ _ Hrun) as ->.
    apply IH.
    destruct (menu_case_log _ _ _ Hrun) as [Heq|(t & Heq & Hid & _)]; rewrite Heq.
    + exact Hids.
    + intros k t' [[_ Hk]|[-> <-]]%lookup_snoc_Some; [by apply Hids|exact Hid].
Qed.

(** X5: the records of the log carry the ids 1, 2, 3, ... in the order in
    which they were appended, as long as the log has at most 2147483647
    records. *)
Theorem transaction_ids_sequential (input : list choice) (h : heap) :
  run (main input) initial ∅ = Returns tt h ∅ ->
  Z.of_nat (length (transactions h)) <= 2147483647 ->
  transactionId <$> transactions h
  = (fun k => Z.of_nat k + 1) <$> seq 0 (length (transactions h)).
Proof.
  rewrite run_main. intros Hrun Hlen.
  assert (forall k t, transactions h !! k = Some t ->
                      transactionId t = Int.wrap (Z.of_nat k + 1)) as Hids.
  { eapply userMenu_log_ids; [|exact Hrun]. by intros k t. }
  apply list_eq. intros k. rewrite !list_lookup_fmap.
  destruct (transactions h !! k) as [t|] eqn:Ht; simpl.
  - pose proof (lookup_lt_Some _ _ _ Ht) as Hlt.
    rewrite lookup_seq_lt by exact Hlt. simpl. f_equal.
    rewrite (Hids k t Ht). apply Int_wrap_id.
    unfold Int.in_range, Int.min, Int.max. lia.
  - apply lookup_ge_None in Ht.
    by rewrite (proj2 (lookup_ge_None (seq 0 (length (transactions h))) k))
      by (rewrite length_seq; lia).
Qed.

Lemma transaction_ids_sequential_witness :
  let input := [CreateAccount "A" "Savings" 100; Deposit 1000 5; Withdraw 1000 200;
                Withdraw 1000 20] in
  let h := mkHeap [mkAccount 1000 "A" 85 "Savings"]
                  [mkTransaction 1 "Deposit" 5 1000 (-1);
                   mkTransaction 2 "Withdraw" 20 1000 (-1)]
                  1001
                  ["Welcome to the Bank!";
                   "Account Created! Your Account Number is: 1000";
                   "Deposited Successfully!"; "Withdrawal Successful!"] in
  run (main input) initial ∅ = Returns tt h ∅
  /\ Z.of_nat (length (transactions h)) <= 2147483647
  /\ transactionId <$> transactions h
     = (fun k => Z.of_nat k + 1) <$> seq 0 (length (transactions h)).
Proof.
  intros input h.
  assert (run (main input) initial ∅ = Returns tt h ∅) as Hrun
    by (vm_compute; reflexivity).
  assert (Z.of_nat (length (transactions h)) <= 2147483647) as Hlen by (simpl; lia).
  split; [exact Hrun|]. split; [exact Hlen|].
  exact (transaction_ids_sequential input h Hrun Hlen).
Defined.

Lemma sound_record_grown (h h' : heap) (t : Transaction) :
  grown_from (accounts h) (accounts h') -> sound_record h t -> sound_record h' t.
Proof.
  intros Hgrow (Hamt & [x Hx] & Hkind).
  split; [exact Hamt|]. split.
  - exists x. by eapply grown_from_first_with_number.
  - destruct Hkind as [?|[?|[Htype [y Hy]]]]; [by left|by right; left|].
    right; right. split; [exact Htype|].
    exists y. by eapply grown_from_first_with_number.
Qed.

Lemma userMenu_log_sound (input : list choice) (h h' : heap) :
  Forall (sound_record h) (transactions h) ->
  run (userMenu input) h ∅ = Returns tt h' ∅ ->
  Forall (sound_record h') (transactions h').
Proof.
  revert h. induction input as [|c rest IH]; intros h Hall.
  - by intros [= <-].
  - rewrite run_userMenu_cons.
    destruct (run (menu_case c) h ∅) as [[] h1 L1|] eqn:Hrun; [|discriminate].
    pose proof (run_menu_case_locks _ _ _ _ _ Hrun) as ->.
    apply IH.
    assert (Forall (sound_record h1) (transactions h)) as Hold.
    { eapply Forall_impl; [exact Hall|].
      intros t. apply sound_record_grown. by eapply menu_case_grows. }
    destruct (menu_case_log _ _ _ Hrun) as [Heq|(t & Heq & _ & Hsound)]; rewrite Heq.
    + exact Hold.
    + apply Forall_app. split; [exact Hold|]. by apply Forall_singleton.
Qed.

(** X6: every record the program has logged has a positive amount and names
    a paying account that is registered; a deposit or withdrawal record has
    no receiving account (-1), a transfer record names a registered one. *)
Theorem log_records_are_sound (input : list choice) (h : heap) :
  run (main input) initial ∅ = Returns tt h ∅ ->
  Forall (sound_record h) (transactions h).
Proof.
  rewrite run_main. apply userMenu_log_sound. apply Forall_nil_2.
Qed.

Lemma log_records_are_sound_witness :
  let input := [CreateAccount "A" "Savings" 100; CreateAccount "B" "Current" 50;
                Transfer 1000 1001 30; Transfer 1000 1002 5; Deposit 1001 (-3)] in
  let h := mkHeap [mkAccount 1000 "A" 70 "Savings"; mkAccount 1001 "B" 80 "Current"]
                  [mkTransaction 1 "Transfer" 30 1000 1001]
                  1002
                  ["Welcome to the Bank!";
                   "Account Created! Your Account Number is: 1000";
                   "Account Created! Your Account Number is: 1001";
                   "Transfer Successful!"] in
  run (main input) initial ∅ = Returns tt h ∅
  /\ Forall (sound_record h) (transactions h).
Proof.
  intros input h.
  assert (run (main input) initial ∅ = Returns tt h ∅) as Hrun
    by (vm_compute; reflexivity).
  split; [exact Hrun|]. exact (log_records_are_sound input h Hrun).
Defined.

(** ** Returning and releasing *)



Lemma balanced_ret {A : Type} (a : A) : balanced (mret a).
Proof. by intros h L r h' L' [= _ _ <-]. Qed.

Lemma balanced_bind {A B : Type} (p : prog A) (f : A -> prog B) :
  balanced p -> (forall a, balanced (f a)) -> balanced (p ≫= f).
Proof.
  intros Hp Hf h L r h' L'. rewrite run_bind.
  destruct (run p h L) as [a h1 L1|] eqn:Hrun; [|discriminate].
  rewrite (Hp _ _ _ _ _ Hrun). apply Hf.
Qed.

Lemma balanced_load {B : Type} (f : heap -> B) : balanced (load f).
Proof. by intros h L r h' L' [= _ _ <-]. Qed.

Lemma balanced_store (f : heap -> heap) : balanced (store f).
Proof. by intros h L r h' L' [= _ _ <-]. Qed.

Lemma balanced_lock_guard {A : Type} (m : mutex) (scope : prog A) :
  balanced scope -> balanced (lock_guard m scope).
Proof.
  intros Hs h L r h' L'. destruct (decide (m ∈ L)) as [Hin|Hout].
  - by rewrite run_lock_guard_held.
  - rewrite run_lock_guard by exact Hout.
    destruct (run scope h ({[m]} ∪ L)) as [a h1 L1|] eqn:Hrun; [|discriminate].
    rewrite (Hs _ _ _ _ _ Hrun). intros [= _ _ <-]. by apply release_acquired.
Qed.

Lemma balanced_rejects this amount : balanced (rejects this amount).
Proof.
  unfold rejects. destruct (bool_decide (amount <= 0)); [apply balanced_ret|].
  apply balanced_bind; [apply balanced_load|]. intros b. apply balanced_ret.
Qed.

Lemma balanced_print line : balanced (print line).
Proof. apply balanced_store. Qed.

Create HintDb balanced.

#[local] Hint Resolve balanced_ret balanced_load balanced_store balanced_print
  balanced_rejects : balanced.

Ltac balance :=
  repeat first
    [ apply balanced_lock_guard
    | apply balanced_bind; [|intros ?]
    | match goal with |- balanced (if ?b then _ else _) => destruct b end
    | match goal with |- balanced (match ?o with Some _ => _ | None => _ end) =>
        destruct o end
    | solve [auto with balanced] ].

Lemma balanced_deposit this amount : balanced (Account.deposit this amount).
Proof. unfold Account.deposit. balance. Qed.

Lemma balanced_withdraw this amount : balanced (Account.withdraw this amount).
Proof. unfold Account.withdraw. balance. Qed.

Lemma balanced_transfer this to amount : balanced (Account.transfer this to amount).
Proof. unfold Account.transfer. balance. Qed.

Lemma balanced_createAccount name type initialBalance :
  balanced (Bank.createAccount name type initialBalance).
Proof. unfold Bank.createAccount. balance. Qed.

Lemma balanced_recordTransaction type amount fromAccount toAccount :
  balanced (Bank.recordTransaction type amount fromAccount toAccount).
Proof. unfold Bank.recordTransaction. balance. Qed.

Lemma balanced_findAccount number : balanced (Bank.findAccount number).
Proof. apply balanced_load. Qed.

#[local] Hint Resolve balanced_deposit balanced_withdraw balanced_transfer
  balanced_createAccount balanced_recordTransaction balanced_findAccount : balanced.

Lemma balanced_menu_case c : balanced (menu_case c).
Proof. destruct c; unfold menu_case; balance. Qed.

(** X8: no method returns holding a mutex it took, and none releases one it
    did not take: whenever [deposit], [withdraw], [transfer],
    [createAccount], [recordTransaction], [findAccount], a case of the menu
    or the whole loop returns, on a successful or on an early-return path,
    the set of held mutexes is what it was at the call, whichever mutexes
    other threads held then. *)
Theorem guards_are_released :
  (forall this amount, balanced (Account.deposit this amount))
  /\ (forall this amount, balanced (Account.withdraw this amount))
  /\ (forall this to amount, balanced (Account.transfer this to amount))
  /\ (forall name type initialBalance,
        balanced (Bank.createAccount name type initialBalance))
  /\ (forall type amount fromAccount toAccount,
        balanced (Bank.recordTransaction type amount fromAccount toAccount))
  /\ (forall number, balanced (Bank.findAccount number))
  /\ (forall c, balanced (menu_case c))
  /\ (forall input, balanced (userMenu input)).
Proof.
  repeat split; auto using balanced_menu_case with balanced.
  intros input. induction input as [|c rest IH]; simpl; [apply balanced_ret|].
  apply balanced_bind; [apply balanced_menu_case|]. intros _. exact IH.
Qed.

(** ** Undoing an operation *)

Lemma set_balance_set_balance this v w h :
  set_balance this w (set_balance this v h) = set_balance this w h.
Proof.
  unfold set_balance. simpl. f_equal.
  apply list_eq. intros j. destruct (decide (this = j)) as [<-|Hne].
  - rewrite !list_lookup_alter_eq. by destruct (accounts h !! this).
  - by rewrite !list_lookup_alter_ne.
Qed.

Lemma set_balance_same this h a :
  accounts h !! this = Some a -> set_balance this (balance a) h = h.
Proof.
  intros Ha. unfold set_balance. destruct h as [accs ts n out]. simpl in *.
  f_equal. apply list_eq. intros j.
  destruct (decide (this = j)) as [<-|Hne].
  - rewrite list_lookup_alter_eq, Ha. by destruct a.
  - by rewrite list_lookup_alter_ne.
Qed.

Lemma set_balance_commute x y v w h :
  x <> y -> set_balance y w (set_balance x v h) = set_balance x v (set_balance y w h).
Proof.
  intros Hne. unfold set_balance. simpl. f_equal.
  apply list_eq. intros j.
  destruct (decide (x = j)) as [Hx|Hx]; [subst j|destruct (decide (y = j)) as [Hy|Hy]].
  - rewrite (list_lookup_alter_ne (with_balance w) _ y x) by done.
    rewrite !list_lookup_alter_eq.
    by rewrite list_lookup_alter_ne by done.
  - subst j.
    rewrite (list_lookup_alter_ne (with_balance v) _ x y) by done.
    rewrite !list_lookup_alter_eq.
    by rewrite list_lookup_alter_ne by done.
  - by rewrite !list_lookup_alter_ne by done.
Qed.

(** X9: on an account whose balance is not negative, a deposit followed by a
    withdrawal of the same amount succeeds twice and leaves the memory
    exactly as it was, provided the deposit fits ([balance + amount <=
    2147483647]).  (On a negative balance the withdrawal is refused.) *)
Theorem deposit_then_withdraw_restores (this : nat) (amount : Z) (h : heap)
    (L : locks) (a : Account) :
  accounts h !! this = Some a ->
  accMutex this ∉ L ->
  0 <= balance a ->
  0 < amount ->
  balance a + amount <= Int.max ->
  run (ok ← Account.deposit this amount;
       ok' ← Account.withdraw this amount;
       mret (ok, ok')) h L
  = Returns (true, true) h L.
Proof.
  intros Ha Hm Hb Hamt Hfit.
  pose proof (lookup_lt_Some _ _ _ Ha) as Hlt.
  rewrite run_bind, run_deposit by exact Hm.
  rewrite bool_decide_eq_false_2 by lia.
  rewrite (get_balance_lookup _ _ _ Ha).
  rewrite Int_add_exact by (unfold Int.in_range, Int.min, Int.max in *; lia).
  rewrite run_bind, run_withdraw by exact Hm.
  rewrite get_set_balance by exact Hlt.
  rewrite bool_decide_eq_false_2, bool_decide_eq_false_2 by lia. simpl.
  rewrite Int_sub_exact by (unfold Int.in_range, Int.min, Int.max in *; lia).
  rewrite set_balance_set_balance.
  replace (balance a + amount - amount) with (balance a) by lia.
  by rewrite set_balance_same.
Qed.

Lemma deposit_then_withdraw_restores_witness :
  let h := mkHeap [mkAccount 1000 "A" 100 "Savings"] [] 1001 [] in
  run (ok ← Account.deposit 0 30;
       ok' ← Account.withdraw 0 30;
       mret (ok, ok')) h ∅
  = Returns (true, true) h ∅.
Proof.
  intros h.
  apply (deposit_then_withdraw_restores 0 30 h ∅ (mkAccount 1000 "A" 100 "Savings")).
  - reflexivity.
  - apply not_elem_of_empty.
  - by_computation.
  - lia.
  - by_computation.
Defined.

(** X10: a transfer from one account to another followed by the transfer of
    the same amount back succeeds twice and leaves the memory exactly as it
    was, provided the receiving balance is not negative and the credit fits
    ([balance(to) + amount <= 2147483647]). *)
Theorem transfer_there_and_back (x y : nat) (amount : Z) (h : heap) (L : locks)
    (ax ay : Account) :
  x <> y ->
  accounts h !! x = Some ax ->
  accounts h !! y = Some ay ->
  accMutex x ∉ L -> accMutex y ∉ L ->
  0 < amount <= balance ax ->
  balance ax <= Int.max ->
  0 <= balance ay ->
  balance ay + amount <= Int.max ->
  run (ok ← Account.transfer x y amount;
       ok' ← Account.transfer y x amount;
       mret (ok, ok')) h L
  = Returns (true, true) h L.
Proof.
  intros Hne Hax Hay Hmx Hmy Hamt Hmax Hby Hfit.
  pose proof (lookup_lt_Some _ _ _ Hax) as Hltx.
  pose proof (lookup_lt_Some _ _ _ Hay) as Hlty.
  assert (forall v w h0, length (accounts (set_balance v w h0)) = length (accounts h0))
    as Hlen by (intros; unfold set_balance; simpl; apply length_alter).
  rewrite run_bind, run_transfer by done.
  rewrite (get_balance_lookup _ _ _ Hax).
  rewrite bool_decide_eq_false_2, bool_decide_eq_false_2 by lia.
  cbn [orb]; cbv beta iota zeta.
  rewrite get_set_balance_ne, (get_balance_lookup _ _ _ Hay) by done.
  rewrite Int_sub_exact by (unfold Int.in_range, Int.min, Int.max in *; lia).
  rewrite Int_add_exact by (unfold Int.in_range, Int.min, Int.max in *; lia).
  rewrite run_bind, run_transfer by done.
  rewrite get_set_balance by (rewrite Hlen; exact Hlty).
  rewrite bool_decide_eq_false_2, bool_decide_eq_false_2 by lia.
  cbn [orb]; cbv beta iota zeta.
  rewrite set_balance_set_balance.
  rewrite get_set_balance_ne by done.
  rewrite get_set_balance by exact Hltx.
  rewrite Int_sub_exact by (unfold Int.in_range, Int.min, Int.max in *; lia).
  rewrite Int_add_exact by (unfold Int.in_range, Int.min, Int.max in *; lia).
  rewrite (set_balance_commute x y) by done.
  rewrite set_balance_set_balance.
  replace (balance ay + amount - amount) with (balance ay) by lia.
  replace (balance ax - amount + amount) with (balance ax) by lia.
  rewrite (set_balance_same y h ay Hay).
  by rewrite (set_balance_same x h ax Hax).
Qed.

Lemma transfer_there_and_back_witness :
  let h := mkHeap [mkAccount 1000 "A" 100 "Savings"; mkAccount 1001 "B" 50 "Current"]
                  [] 1002 [] in
  run (ok ← Account.transfer 0 1 30;
       ok' ← Account.transfer 1 0 30;
       mret (ok, ok')) h ∅
  = Returns (true, true) h ∅.
Proof.
  intros h.
  apply (transfer_there_and_back 0 1 30 h ∅
           (mkAccount 1000 "A" 100 "Savings") (mkAccount 1001 "B" 50 "Current")).
  - lia.
  - reflexivity.
  - reflexivity.
  - apply not_elem_of_empty.
  - apply not_elem_of_empty.
  - by_computation.
  - by_computation.
  - by_computation.
  - by_computation.
Defined.

(** ** The sum of the balances *)




(** ** Two threads in sections guarded by the same mutex *)

Lemma run_lock_free {A : Type} (p : prog A) (h : heap) (L : locks) :
  lock_free p -> run p h L = Returns (effect p h).1 (effect p h).2 L.
Proof.
  revert h. induction p as [a|k IH|g k IH|m k IH|m k IH]; intros h Hfree; simpl in *;
    [reflexivity|by apply IH|by apply IH|done|done].
Qed.

Lemma at_phase_step {A : Type} (m : mutex) (scope : prog A) (ph : phase A)
    (mem : heap) (Lc : locks) p' mem' L' :
  thread_step (at_phase m scope ph) mem Lc = Some (p', mem', L') ->
  match ph with
  | Waiting =>
      (m ∉ Lc) /\ p' = at_phase m scope (Inside scope) /\ mem' = mem /\ L' = {[m]} ∪ Lc
  | Inside s =>
      lock_free s ->
      (exists r, s = Ret r /\ p' = at_phase m scope (Done r)
                 /\ mem' = mem /\ L' = Lc ∖ {[m]})
      \/ (exists s', p' = at_phase m scope (Inside s') /\ lock_free s'
                     /\ effect s' mem' = effect s mem /\ L' = Lc)
  | Done _ => False
  end.
Proof.
  destruct ph as [|s|r]; simpl.
  - destruct (decide (m ∈ Lc)); [discriminate|].
    intros Heq. injection Heq as <- <- <-. done.
  - destruct s as [r|k|g k|m' k|m' k]; simpl; intros Heq Hfree;
      [| | |done|done]; injection Heq as <- <- <-;
      [left; by exists r|right; by exists (k mem)|right; by exists k].
  - discriminate.
Qed.

Lemma serial_inv_start {A : Type} (m : mutex) (s1 s2 : prog A) (h0 : heap) (L : locks) :
  serial_inv m s1 s2 h0 L (mkConfig [lock_guard m s1; lock_guard m s2] h0 L).
Proof. by exists Waiting, Waiting. Qed.

Lemma serial_inv_step {A : Type} (m : mutex) (s1 s2 : prog A) (h0 : heap) (L : locks)
    (t : nat) (c c' : config A) :
  lock_free s1 -> lock_free s2 -> m ∉ L ->
  serial_inv m s1 s2 h0 L c ->
  pool_step t c = Some c' ->
  serial_inv m s1 s2 h0 L c'.
Proof.
  intros Hs1 Hs2 Hm (ph1 & ph2 & Hth & Hinv) Hstep.
  assert (m ∈ ({[m]} ∪ L : locks)) as Hheld
    by (apply elem_of_union_l, elem_of_singleton; reflexivity).
  destruct c as [ths mem Lc]. simpl in Hth, Hinv. subst ths.
  unfold pool_step in Hstep. simpl in Hstep.
  destruct t as [|[|t]]; simpl in Hstep; [| |discriminate].
  - destruct (thread_step (at_phase m s1 ph1) mem Lc) as [[[p' mem'] L']|] eqn:Hts;
      [|discriminate].
    injection Hstep as <-. apply at_phase_step in Hts.
    destruct ph1 as [|s|r1].
    + destruct Hts as (Hfree & -> & -> & ->).
      destruct ph2 as [|s|r2].
      * destruct Hinv as [-> ->]. by exists (Inside s1), Waiting.
      * destruct Hinv as (_ & _ & ->). done.
      * destruct Hinv as [Heff ->]. exists (Inside s1), (Done r2).
        split; [reflexivity|]. split; [exact Hs1|]. split; [reflexivity|].
        by exists mem.
    + destruct ph2 as [|s'|r2]; [| done |].
      * destruct Hinv as (Hfree & Heff & ->).
        destruct (Hts Hfree) as [(r & -> & -> & -> & ->)|(s' & -> & Hfree' & Heff' & ->)].
        -- exists (Done r), Waiting. split; [reflexivity|]. simpl in *.
           split; [by rewrite <- Heff|by apply release_acquired].
        -- exists (Inside s'), Waiting. split; [reflexivity|]. simpl.
           split; [exact Hfree'|]. split; [congruence|reflexivity].
      * destruct Hinv as (Hfree & -> & h2 & Heff2 & Heff).
        destruct (Hts Hfree) as [(r & -> & -> & -> & ->)|(s' & -> & Hfree' & Heff' & ->)].
        -- exists (Done r), (Done r2). split; [reflexivity|]. simpl in *.
           split; [by apply release_acquired|]. right.
           unfold in_turn. by rewrite Heff2, <- Heff.
        -- exists (Inside s'), (Done r2). split; [reflexivity|]. simpl.
           split; [exact Hfree'|]. split; [reflexivity|].
           exists h2. split; [exact Heff2|congruence].
    + done.
  - destruct (thread_step (at_phase m s2 ph2) mem Lc) as [[[p' mem'] L']|] eqn:Hts;
      [|discriminate].
    injection Hstep as <-. apply at_phase_step in Hts.
    destruct ph2 as [|s|r2].
    + destruct Hts as (Hfree & -> & -> & ->).
      destruct ph1 as [|s|r1].
      * destruct Hinv as [-> ->]. by exists Waiting, (Inside s2).
      * destruct Hinv as (_ & _ & ->). done.
      * destruct Hinv as [Heff ->]. exists (Done r1), (Inside s2).
        split; [reflexivity|]. split; [exact Hs2|]. split; [reflexivity|].
        by exists mem.
    + destruct ph1 as [|s'|r1]; [| done |].
      * destruct Hinv as (Hfree & Heff & ->).
        destruct (Hts Hfree) as [(r & -> & -> & -> & ->)|(s' & -> & Hfree' & Heff' & ->)].
        -- exists Waiting, (Done r). split; [reflexivity|]. simpl in *.
           split; [by rewrite <- Heff|by apply release_acquired].
        -- exists Waiting, (Inside s'). split; [reflexivity|]. simpl.
           split; [exact Hfree'|]. split; [congruence|reflexivity].
      * destruct Hinv as (Hfree & -> & h1 & Heff1 & Heff).
        destruct (Hts Hfree) as [(r & -> & -> & -> & ->)|(s' & -> & Hfree' & Heff' & ->)].
        -- exists (Done r1), (Done r). split; [reflexivity|]. simpl in *.
           split; [by apply release_acquired|]. left.
           unfold in_turn. by rewrite Heff1, <- Heff.
        -- exists (Done r1), (Inside s'). split; [reflexivity|]. simpl.
           split; [exact Hfree'|]. split; [reflexivity|].
           exists h1. split; [exact Heff1|congruence].
    + done.
Qed.

Lemma serial_inv_schedule {A : Type} (m : mutex) (s1 s2 : prog A) (h0 : heap) (L : locks)
    (ts : list nat) (c c' : config A) :
  lock_free s1 -> lock_free s2 -> m ∉ L ->
  serial_inv m s1 s2 h0 L c ->
  schedule ts c = Some c' ->
  serial_inv m s1 s2 h0 L c'.
Proof.
  intros Hs1 Hs2 Hm. revert c. induction ts as [|t ts IH]; intros c Hinv.
  - by intros [= <-].
  - simpl. destruct (pool_step t c) as [c1|] eqn:Hstep; [|discriminate].
    simpl. apply IH. by eapply serial_inv_step.
Qed.

Lemma at_phase_finished {A : Type} (m : mutex) (scope : prog A) (ph : phase A) :
  finished (at_phase m scope ph) = true -> exists r, ph = Done r.
Proof.
  destruct ph as [|s|r]; simpl; [discriminate| |by exists r].
  by destruct s.
Qed.


(** Two threads that each run a scope under a [lock_guard] on the same mutex,
    the scopes taking no further mutex, are serialised: under every schedule
    that lets both finish, the results and the final memory are those of
    running one scope after the other, in one of the two orders, and the
    mutex is free again. *)
Lemma sections_serialise {A : Type} (m : mutex) (s1 s2 : prog A)
    (h : heap) (L : locks) (ts : list nat) (c : config A) :
  lock_free s1 -> lock_free s2 -> m ∉ L ->
  schedule ts (mkConfig [lock_guard m s1; lock_guard m s2] h L) = Some c ->
  Forall (fun p => finished p = true) (threads c) ->
  exists r1 r2,
    threads c = [Ret r1; Ret r2]
    /\ held c = L
    /\ (in_turn s1 s2 h = (r1, r2, memory c) \/ in_turn s2 s1 h = (r2, r1, memory c)).
Proof.
  intros Hs1 Hs2 Hm Hsched Hfin.
  destruct (serial_inv_schedule m s1 s2 h L ts _ c Hs1 Hs2 Hm
              (serial_inv_start m s1 s2 h L) Hsched) as (ph1 & ph2 & Hth & Hinv).
  rewrite Hth in Hfin.
  apply Forall_cons in Hfin as [[r1 ->]%at_phase_finished Hfin].
  apply Forall_cons in Hfin as [[r2 ->]%at_phase_finished _].
  exists r1, r2. by split.
Qed.




(** ** Concurrent deposits and concurrent creations *)

Lemma Int_add_wrap (z a : Z) : Int.add (Int.wrap z) a = Int.wrap (z + a).
Proof.
  unfold Int.add, Int.wrap.
  replace ((z + 2147483648) mod 4294967296 - 2147483648 + a + 2147483648)
    with ((z + 2147483648) mod 4294967296 + a) by lia.
  rewrite Z.add_mod_idemp_l by lia.
  by replace (z + 2147483648 + a) with (z + a + 2147483648) by lia.
Qed.

Lemma Int_add_1_ne (n : Z) : Int.in_range n -> Int.add n 1 <> n.
Proof.
  unfold Int.in_range, Int.min, Int.max. intros Hn.
  destruct (decide (n = 2147483647)) as [->|Hne]; [by vm_compute|].
  rewrite Int_add_exact; [lia|]. unfold Int.in_range, Int.min, Int.max. lia.
Qed.

(** X13: no deposit is lost: when two threads deposit into the same account
    at the same time, then under every schedule that lets both finish, both
    calls return [true], the balance has grown by both amounts (as an [int]:
    exactly, when the sum fits), nothing else has changed and the mutex of
    the account is free again. *)
Theorem concurrent_deposits_both_count (x : nat) (a1 a2 : Z) (h : heap) (L : locks)
    (acct : Account) (ts : list nat) (c : config bool) :
  0 < a1 -> 0 < a2 ->
  accounts h !! x = Some acct ->
  accMutex x ∉ L ->
  schedule ts (mkConfig [Account.deposit x a1; Account.deposit x a2] h L) = Some c ->
  Forall (fun p => finished p = true) (threads c) ->
  threads c = [Ret true; Ret true]
  /\ held c = L
  /\ memory c = set_balance x (Int.wrap (balance acct + a1 + a2)) h
  /\ (Int.in_range (balance acct + a1 + a2) ->
      get_balance x (memory c) = balance acct + a1 + a2).
Proof.
  intros Ha1 Ha2 Hacct Hm Hsched Hfin.
  pose proof (lookup_lt_Some _ _ _ Hacct) as Hlt.
  unfold Account.deposit in Hsched.
  rewrite !bool_decide_eq_false_2 in Hsched by lia.
  apply sections_serialise in Hsched
    as (r1 & r2 & Hth & Hheld & Horder); [|by simpl..|exact Hfin].
  assert (memory c = set_balance x (Int.wrap (balance acct + a1 + a2)) h
          /\ r1 = true /\ r2 = true) as (Hmem & -> & ->).
  { unfold in_turn in Horder. simpl in Horder.
    rewrite !get_set_balance, !set_balance_set_balance in Horder by exact Hlt.
    rewrite (get_balance_lookup _ _ _ Hacct) in Horder.
    unfold Int.add at 2 4 in Horder. rewrite !Int_add_wrap in Horder.
    destruct Horder as [Heq|Heq]; injection Heq as <- <- <-;
      (split; [f_equal; f_equal; lia|done]). }
  split; [exact Hth|]. split; [exact Hheld|]. split; [exact Hmem|].
  intros Hfit. rewrite Hmem, get_set_balance by exact Hlt. by apply Int_wrap_id.
Qed.

Lemma concurrent_deposits_both_count_witness :
  let h := mkHeap [mkAccount 1000 "A" 100 "Savings"] [] 1001 [] in
  let c := mkConfig [Ret true; Ret true]
                    (mkHeap [mkAccount 1000 "A" 135 "Savings"] [] 1001 []) ∅ in
  schedule [1; 1; 1; 1; 0; 0; 0; 0]%nat
           (mkConfig [Account.deposit 0 5; Account.deposit 0 30] h ∅) = Some c
  /\ threads c = [Ret true; Ret true]
  /\ held c = ∅
  /\ memory c = set_balance 0 (Int.wrap (100 + 5 + 30)) h
  /\ (Int.in_range (100 + 5 + 30) -> get_balance 0 (memory c) = 100 + 5 + 30).
Proof.
  intros h c.
  assert (schedule [1; 1; 1; 1; 0; 0; 0; 0]%nat
                   (mkConfig [Account.deposit 0 5; Account.deposit 0 30] h ∅) = Some c)
    as Hsched by (vm_compute; reflexivity).
  split; [exact Hsched|].
  apply (concurrent_deposits_both_count 0 5 30 h ∅ (mkAccount 1000 "A" 100 "Savings")
           [1; 1; 1; 1; 0; 0; 0; 0]%nat c).
  - lia.
  - lia.
  - reflexivity.
  - apply not_elem_of_empty.
  - exact Hsched.
  - repeat constructor.
Defined.

(** X14: two threads that create accounts at the same time never receive the
    same number: under every schedule that lets both finish, one call returns
    the value the counter had and the other the next one, the two new
    accounts stand at the end of the registry in that order with the numbers
    returned, and the counter has advanced twice. *)
Theorem concurrent_creations_get_distinct_numbers
    (name1 type1 name2 type2 : string) (b1 b2 : Z) (h : heap) (L : locks)
    (ts : list nat) (c : config Z) :
  Int.in_range (nextAccountNumber h) ->
  globalMutex ∉ L ->
  schedule ts (mkConfig [Bank.createAccount name1 type1 b1;
                         Bank.createAccount name2 type2 b2] h L) = Some c ->
  Forall (fun p => finished p = true) (threads c) ->
  exists r1 r2,
    threads c = [Ret r1; Ret r2]
    /\ r1 <> r2
    /\ held c = L
    /\ nextAccountNumber (memory c) = Int.add (Int.add (nextAccountNumber h) 1) 1
    /\ ((r1 = nextAccountNumber h /\ r2 = Int.add (nextAccountNumber h) 1
         /\ accounts (memory c)
            = accounts h ++ [mkAccount r1 name1 b1 type1; mkAccount r2 name2 b2 type2])
        \/ (r2 = nextAccountNumber h /\ r1 = Int.add (nextAccountNumber h) 1
            /\ accounts (memory c)
               = accounts h ++ [mkAccount r2 name2 b2 type2; mkAccount r1 name1 b1 type1])).
Proof.
  intros Hn Hm Hsched Hfin.
  pose proof (Int_add_1_ne _ Hn) as Hne.
  unfold Bank.createAccount in Hsched.
  apply sections_serialise in Hsched
    as (r1 & r2 & Hth & Hheld & Horder); [|by simpl..|exact Hfin].
  exists r1, r2. split; [exact Hth|].
  unfold in_turn in Horder. simpl in Horder.
  destruct Horder as [Heq|Heq]; injection Heq as <- <- <-; simpl.
  - split; [congruence|]. split; [exact Hheld|]. split; [reflexivity|].
    left. split; [reflexivity|]. split; [reflexivity|]. by rewrite <- app_assoc.
  - split; [congruence|]. split; [exact Hheld|]. split; [reflexivity|].
    right. split; [reflexivity|]. split; [reflexivity|]. by rewrite <- app_assoc.
Qed.

Lemma concurrent_creations_get_distinct_numbers_witness :
  let c := mkConfig [Ret 1001; Ret 1000]
                    (mkHeap [mkAccount 1000 "B" 50 "Current";
                             mkAccount 1001 "A" 100 "Savings"] [] 1002 []) ∅ in
  Int.in_range (nextAccountNumber initial)
  /\ schedule [1; 1; 1; 1; 1; 1; 0; 0; 0; 0; 0; 0]%nat
              (mkConfig [Bank.createAccount "A" "Savings" 100;
                         Bank.createAccount "B" "Current" 50] initial ∅) = Some c
  /\ exists r1 r2,
       threads c = [Ret r1; Ret r2]
       /\ r1 <> r2
       /\ held c = ∅
       /\ nextAccountNumber (memory c) = Int.add (Int.add (nextAccountNumber initial) 1) 1
       /\ ((r1 = nextAccountNumber initial /\ r2 = Int.add (nextAccountNumber initial) 1
            /\ accounts (memory c)
               = accounts initial
                 ++ [mkAccount r1 "A" 100 "Savings"; mkAccount r2 "B" 50 "Current"])
           \/ (r2 = nextAccountNumber initial
               /\ r1 = Int.add (nextAccountNumber initial) 1
               /\ accounts (memory c)
                  = accounts initial
                    ++ [mkAccount r2 "B" 50 "Current"; mkAccount r1 "A" 100 "Savings"])).
Proof.
  intros c.
  assert (Int.in_range (nextAccountNumber initial)) as Hn by by_computation.
  assert (schedule [1; 1; 1; 1; 1; 1; 0; 0; 0; 0; 0; 0]%nat
                   (mkConfig [Bank.createAccount "A" "Savings" 100;
                              Bank.createAccount "B" "Current" 50] initial ∅) = Some c)
    as Hsched by (vm_compute; reflexivity).
  split; [exact Hn|]. split; [exact Hsched|].
  apply (concurrent_creations_get_distinct_numbers
           "A" "Savings" "B" "Current" 100 50 initial ∅
           [1; 1; 1; 1; 1; 1; 0; 0; 0; 0; 0; 0]%nat c).
  - exact Hn.
  - apply not_elem_of_empty.
  - exact Hsched.
  - repeat constructor.
Defined.

(** ** Viewing accounts *)

Lemma run_display (this : nat) (h : heap) (L : locks) :
  accMutex this ∉ L ->
  run (View.display this) h L
  = Returns tt (put_line (from_option account_text "" (accounts h !! this)) h) L.
Proof.
  intros Hm. unfold View.display.
  rewrite run_lock_guard by exact Hm. simpl. by rewrite release_acquired.
Qed.

Lemma put_lines_cons line lines h :
  put_lines lines (put_line line h) = put_lines (line :: lines) h.
Proof. unfold put_lines, put_line. simpl. by rewrite <- app_assoc. Qed.

Lemma put_lines_nil h : put_lines [] h = h.
Proof. destruct h. unfold put_lines. simpl. by rewrite app_nil_r. Qed.

Lemma run_display_each (positions : list nat) (h : heap) :
  run (View.display_each positions) h ∅
  = Returns tt
      (put_lines ((fun i => from_option account_text "" (accounts h !! i)) <$> positions) h)
      ∅.
Proof.
  revert h. induction positions as [|i rest IH]; intros h.
  - simpl. by rewrite put_lines_nil.
  - cbn [View.display_each]. rewrite run_seq, run_display by apply not_elem_of_empty.
    rewrite IH. by rewrite put_lines_cons.
Qed.

Lemma texts_of_positions (accs : list Account) :
  (fun i => from_option account_text "" (accs !! i)) <$> seq 0 (length accs)
  = account_text <$> accs.
Proof.
  apply list_eq. intros i. rewrite !list_lookup_fmap.
  destruct (accs !! i) as [a|] eqn:Ha; simpl.
  - rewrite lookup_seq_lt by (by eapply lookup_lt_Some). simpl. by rewrite Ha.
  - apply lookup_ge_None in Ha.
    by rewrite (proj2 (lookup_ge_None (seq 0 (length accs)) i))
      by (rewrite length_seq; lia).
Qed.

(** X15: viewing (choice 5) only reads: it returns with every mutex released
    and with the accounts, the log and the counter untouched, having printed
    one block per account in the order of the registry for the number 0, the
    block of the account for a registered number, and "Account not found!"
    for any other number. *)
Theorem view_only_reads (accNum : Z) (h : heap) :
  exists out,
    run (View.view_case accNum) h ∅ = Returns tt (put_lines out h) ∅
    /\ (accNum = 0 -> out = account_text <$> accounts h)
    /\ (accNum <> 0 ->
        forall x a, first_with_number accNum (accounts h) = Some x ->
                    accounts h !! x = Some a -> out = [account_text a])
    /\ (accNum <> 0 ->
        first_with_number accNum (accounts h) = None -> out = ["Account not found!"]).
Proof.
  exists (viewed accNum h). unfold viewed, View.view_case.
  destruct (bool_decide (accNum = 0)) eqn:Hzero.
  - apply bool_decide_eq_true in Hzero. split; [|by repeat split].
    unfold View.displayAllAccounts.
    change (run (View.display_each (seq 0 (length (accounts h)))) h ∅
            = Returns tt (put_lines (account_text <$> accounts h) h) ∅).
    by rewrite run_display_each, texts_of_positions.
  - apply bool_decide_eq_false in Hzero.
    rewrite run_bind, run_findAccount.
    destruct (first_with_number accNum (accounts h)) as [x|] eqn:Hx.
    + rewrite run_display by apply not_elem_of_empty.
      split; [|split; [done|split; [|done]]].
      * destruct (accounts h !! x) as [a|] eqn:Ha; simpl.
        -- by rewrite <- put_lines_cons, put_lines_nil.
        -- by destruct (first_with_number_Some _ _ _ Hx) as (a & Ha' & _); simplify_eq.
      * intros _ x' a [= <-] Ha. by rewrite Ha.
    + rewrite run_print. split; [by rewrite <- put_lines_cons, put_lines_nil|].
      by repeat split.
Qed.

(** ** A viewer beside a transfer *)

(** X16: a transfer is not one step for a reader.  When one thread transfers
    from x to y while another views y and then x, there is a schedule, for
    any two accounts and any valid amount, in which the viewer prints y with
    its balance from before the transfer and x with its balance from after
    it: the two printed balances add up to [amount] less than the two
    accounts hold before and after the transfer, although both threads
    return and the transfer is carried out in full. *)
Theorem viewer_sees_transfer_in_flight (x y : nat) (amount : Z) (h : heap)
    (ax ay : Account) :
  x <> y ->
  accounts h !! x = Some ax ->
  accounts h !! y = Some ay ->
  Int.in_range (balance ax) ->
  Int.in_range (balance ay) ->
  0 < amount <= balance ax ->
  balance ay + amount <= Int.max ->
  exists c,
    schedule [0; 0; 0; 0; 1; 1; 1; 1; 0; 0; 0; 0; 0; 1; 1; 1; 1]%nat
             (mkConfig [Account.transfer x y amount ≫= (fun _ => mret tt);
                        View.display y;; View.display x] h ∅) = Some c
    /\ threads c = [Ret tt; Ret tt]
    /\ held c = ∅
    /\ cout (memory c)
       = cout h ++ [account_text ay;
                    account_text (with_balance (balance ax - amount) ax)]
    /\ get_balance x (memory c) = balance ax - amount
    /\ get_balance y (memory c) = balance ay + amount.
Proof.
  intros Hne Hax Hay Hrx Hry Hamt Hfit.
  assert (accMutex y ∉ ({[accMutex x]} ∪ ∅ : locks)) as Hy.
  { rewrite elem_of_union, elem_of_singleton. intros [[= ->]|Hin]; [done|].
    by apply not_elem_of_empty in Hin. }
  assert (accMutex x ∉ (∅ : locks)) as Hx by apply not_elem_of_empty.
  pose proof (lookup_lt_Some _ _ _ Hax) as Hltx.
  pose proof (lookup_lt_Some _ _ _ Hay) as Hlty.
  eexists. split.
  - unfold Account.transfer, View.display, lock_guard, rejects, print.
    rewrite (bool_decide_eq_false_2 (amount <= 0)) by lia.
    cbn [bind mbind prog_bind mret prog_ret load store].
    thread_steps @schedule_first. rewrite decide_False by exact Hx.
    thread_steps @schedule_first.
    rewrite (get_balance_lookup _ _ _ Hax).
    rewrite (bool_decide_eq_false_2 (amount > balance ax)) by lia.
    cbn [bind mbind prog_bind mret prog_ret load store].
    thread_steps @schedule_first.
    thread_steps @schedule_first.
    thread_steps @schedule_second. rewrite decide_False by exact Hy.
    thread_steps @schedule_second.
    thread_steps @schedule_second.
    thread_steps @schedule_second.
    rewrite (release_acquired _ _ Hy).
    thread_steps @schedule_first. rewrite decide_False by exact Hy.
    thread_steps @schedule_first.
    thread_steps @schedule_first.
    thread_steps @schedule_first.
    rewrite (release_acquired _ _ Hy).
    thread_steps @schedule_first.
    rewrite (release_acquired _ _ Hx).
    thread_steps @schedule_second. rewrite decide_False by exact Hx.
    thread_steps @schedule_second.
    thread_steps @schedule_second.
    thread_steps @schedule_second.
    rewrite (release_acquired _ _ Hx).
    reflexivity.
  - cbn [threads held memory].
    rewrite (get_balance_lookup _ _ _ Hax).
    rewrite Int_sub_exact by (unfold Int.in_range, Int.min, Int.max in *; lia).
    assert (accounts (set_balance x (balance ax - amount) h) !! y = Some ay) as Hy1
      by (rewrite lookup_set_balance_ne; done).
    rewrite !Hy1. cbn [from_option].
    assert (forall line h0, get_balance y (put_line line h0) = get_balance y h0) as Hput
      by reflexivity.
    rewrite !Hput, !get_set_balance_ne, !(get_balance_lookup _ _ _ Hay) by done.
    rewrite Int_add_exact by (unfold Int.in_range, Int.min, Int.max in *; lia).
    assert (forall line,
               accounts (set_balance y (balance ay + amount)
                           (put_line line (set_balance x (balance ax - amount) h))) !! x
               = Some (with_balance (balance ax - amount) ax)) as Hx2.
    { intros line. rewrite lookup_set_balance_ne by done. simpl.
      by rewrite list_lookup_alter_eq, Hax. }
    rewrite !Hx2. cbn [from_option].
    split; [reflexivity|]. split; [reflexivity|]. split; [|split].
    + simpl. by rewrite <- app_assoc.
    + unfold get_balance. cbn [put_line accounts].
      change (alter (with_balance (balance ay + amount)) y
                (accounts (put_line (account_text ay)
                             (set_balance x (balance ax - amount) h))))
        with (accounts (set_balance y (balance ay + amount)
                          (put_line (account_text ay)
                             (set_balance x (balance ax - amount) h)))).
      by rewrite Hx2.
    + unfold get_balance. simpl.
      rewrite list_lookup_alter_eq. simpl.
      rewrite list_lookup_alter_ne by done. by rewrite Hay.
Qed.

Lemma viewer_sees_transfer_in_flight_witness :
  let h := mkHeap [mkAccount 1000 "A" 100 "Savings"; mkAccount 1001 "B" 50 "Current"]
                  [] 1002 [] in
  exists c,
    schedule [0; 0; 0; 0; 1; 1; 1; 1; 0; 0; 0; 0; 0; 1; 1; 1; 1]%nat
             (mkConfig [Account.transfer 0 1 30 ≫= (fun _ => mret tt);
                        View.display 1;; View.display 0] h ∅) = Some c
    /\ threads c = [Ret tt; Ret tt]
    /\ held c = ∅
    /\ cout (memory c)
       = cout h ++ [account_text (mkAccount 1001 "B" 50 "Current");
                    account_text (with_balance (100 - 30)
                                    (mkAccount 1000 "A" 100 "Savings"))]
    /\ get_balance 0 (memory c) = 100 - 30
    /\ get_balance 1 (memory c) = 50 + 30.
Proof.
  intros h.
  apply (viewer_sees_transfer_in_flight 0 1 30 h
           (mkAccount 1000 "A" 100 "Savings") (mkAccount 1001 "B" 50 "Current")).
  - lia.
  - reflexivity.
  - reflexivity.
  - by_computation.
  - by_computation.
  - by_computation.
  - by_computation.
Defined.

(** ** Concurrent withdrawals *)

Lemma withdraw_effect (x : nat) (a : Z) (h : heap) (acct : Account) :
  accounts h !! x = Some acct ->
  0 <= balance acct <= Int.max ->
  exists (r : bool) (h' : heap),
    effect (no ← rejects x a;
            if no : bool then mret false
            else b ← load (get_balance x);
                 store (set_balance x (Int.sub b a));;
                 mret true) h = (r, h')
    /\ exists acct',
         accounts h' !! x = Some acct'
         /\ balance acct' = balance acct - (if r then a else 0)
         /\ 0 <= balance acct' <= Int.max.
Proof.
  intros Hacct Hb. unfold rejects.
  destruct (bool_decide (a <= 0)) eqn:Ha; simpl.
  - exists false, h. split; [reflexivity|]. exists acct. split; [exact Hacct|]. lia.
  - rewrite (get_balance_lookup _ _ _ Hacct).
    destruct (bool_decide (a > balance acct)) eqn:Hgt; simpl.
    + exists false, h. split; [reflexivity|]. exists acct. split; [exact Hacct|]. lia.
    + apply bool_decide_eq_false in Ha, Hgt.
      exists true. eexists. split; [reflexivity|].
      exists (with_balance (balance acct - a) acct). split; [|simpl; lia].
      rewrite (get_balance_lookup _ _ _ Hacct).
      unfold set_balance. simpl. rewrite list_lookup_alter_eq, Hacct. simpl.
      rewrite Int_sub_exact; [reflexivity|].
      unfold Int.in_range, Int.min, Int.max in *. lia.
Qed.

Lemma withdraw_scope_lock_free (x : nat) (a : Z) :
  lock_free (no ← rejects x a;
             if no : bool then mret false
             else b ← load (get_balance x);
                  store (set_balance x (Int.sub b a));;
                  mret true).
Proof.
  unfold rejects. destruct (bool_decide (a <= 0)); simpl; [done|].
  intros h. by destruct (bool_decide (a > get_balance x h)).
Qed.

(** X17: concurrent withdrawals cannot overdraw an account: when two threads
    withdraw from the same account, whose balance is not negative, then under
    every schedule that lets both finish the balance has gone down by exactly
    the amounts of the calls that returned [true], and it is still not
    negative. *)
Theorem concurrent_withdrawals_never_overdraw (x : nat) (a1 a2 : Z) (h : heap)
    (L : locks) (acct : Account) (ts : list nat) (c : config bool) :
  accounts h !! x = Some acct ->
  0 <= balance acct <= Int.max ->
  accMutex x ∉ L ->
  schedule ts (mkConfig [Account.withdraw x a1; Account.withdraw x a2] h L) = Some c ->
  Forall (fun p => finished p = true) (threads c) ->
  exists r1 r2 : bool,
    threads c = [Ret r1; Ret r2]
    /\ held c = L
    /\ get_balance x (memory c)
       = balance acct - (if r1 then a1 else 0) - (if r2 then a2 else 0)
    /\ 0 <= get_balance x (memory c).
Proof.
  intros Hacct Hb Hm Hsched Hfin.
  unfold Account.withdraw in Hsched.
  apply sections_serialise in Hsched
    as (r1 & r2 & Hth & Hheld & Horder);
    [|apply withdraw_scope_lock_free..|exact Hm|exact Hfin].
  exists r1, r2. split; [exact Hth|]. split; [exact Hheld|].
  unfold in_turn in Horder.
  destruct Horder as [Heq|Heq].
  - destruct (withdraw_effect x a1 h acct Hacct Hb)
      as (q1 & h1 & Heff1 & acct1 & Hacct1 & Hb1 & Hr1).
    destruct (withdraw_effect x a2 h1 acct1 Hacct1 Hr1)
      as (q2 & h2 & Heff2 & acct2 & Hacct2 & Hb2 & Hr2).
    rewrite Heff1 in Heq. cbv beta iota zeta in Heq.
    rewrite Heff2 in Heq. injection Heq as <- <- <-.
    rewrite (get_balance_lookup _ _ _ Hacct2). lia.
  - destruct (withdraw_effect x a2 h acct Hacct Hb)
      as (q2 & h2 & Heff2 & acct2 & Hacct2 & Hb2 & Hr2).
    destruct (withdraw_effect x a1 h2 acct2 Hacct2 Hr2)
      as (q1 & h1 & Heff1 & acct1 & Hacct1 & Hb1 & Hr1).
    rewrite Heff2 in Heq. cbv beta iota zeta in Heq.
    rewrite Heff1 in Heq. injection Heq as <- <- <-.
    rewrite (get_balance_lookup _ _ _ Hacct1). lia.
Qed.

Lemma concurrent_withdrawals_never_overdraw_witness :
  let h := mkHeap [mkAccount 1000 "A" 100 "Savings"] [] 1001 [] in
  let c := mkConfig [Ret false; Ret true]
                    (mkHeap [mkAccount 1000 "A" 20 "Savings"] [] 1001 []) ∅ in
  schedule [1; 1; 1; 1; 1; 0; 0; 0]%nat
           (mkConfig [Account.withdraw 0 70; Account.withdraw 0 80] h ∅) = Some c
  /\ exists r1 r2 : bool,
       threads c = [Ret r1; Ret r2]
       /\ held c = ∅
       /\ get_balance 0 (memory c)
          = 100 - (if r1 then 70 else 0) - (if r2 then 80 else 0)
       /\ 0 <= get_balance 0 (memory c).
Proof.
  intros h c.
  assert (schedule [1; 1; 1; 1; 1; 0; 0; 0]%nat
                   (mkConfig [Account.withdraw 0 70; Account.withdraw 0 80] h ∅) = Some c)
    as Hsched by (vm_compute; reflexivity).
  split; [exact Hsched|].
  apply (concurrent_withdrawals_never_overdraw 0 70 80 h ∅
           (mkAccount 1000 "A" 100 "Savings") [1; 1; 1; 1; 1; 0; 0; 0]%nat c).
  - reflexivity.
  - by_computation.
  - apply not_elem_of_empty.
  - exact Hsched.
  - repeat constructor.
Defined.
